(** * cbuild: normalization interceptor, config emitter and dependency tree

    A shallow embedding of [cbuild.ts] (module bundling helper built on
    systemjs-builder and browser-resolve) together with the properties
    its design document states about it.

    Conventions of the embedding.
    - JavaScript strings are [string]s (sequences of 8-bit code units).
    - A JavaScript object used as a table whose enumeration order is
      observable ([Object.keys]) is an insertion-ordered association list
      with unique keys ([obj_set] overwrites in place, appends otherwise);
      keys are assumed not to be array indices (paths and module names
      are not).
    - Every such table is a plain object, so a read [tbl[name]] also sees
      what [Object.prototype] hands down. [makeTree] reads its tables
      under names taken from its argument, and there the inherited
      properties are modelled ([Proto.inherited]). The tables of [build]
      are keyed by relative paths and by the names the loader and the
      resolver deal in; for those tables only own properties are
      modelled.
    - An argument that may be [undefined] is an [option]: the parent of
      an import is [None] for the import that starts the bundle.
    - A promise is its settled outcome: [Resolved v] or [Rejected e].
    - The collaborators (the original normalizer, [fs.stat], the package
      resolver, [path.relative], [path.dirname], [fs.readFileSync],
      [fs.writeFileSync]) are parameters; every call made to [fs.stat]
      and to the resolver is appended to a trace kept in the session
      state. *)

From Stdlib Require Import Ascii String List Arith Lia Bool.
From stdpp Require Import base strings list sorting gmap.

Import ListNotations.

(** ** Strings *)

Module Str.

Definition slash : ascii := "/"%char.
Definition backslash : ascii := "\"%char.
Definition LF : ascii := "010"%char.
Definition CR : ascii := "013"%char.
Definition TAB : ascii := "009"%char.

(** [strip_prefix p s] is [Some r] when [s = p ++ r]. *)
Fixpoint strip_prefix (p s : string) : option string :=
  match p, s with
  | EmptyString, _ => Some s
  | String a p', String b s' =>
      if Ascii.eqb a b then strip_prefix p' s' else None
  | String _ _, EmptyString => None
  end.

Fixpoint map_chars (f : ascii -> ascii) (s : string) : string :=
  match s with
  | EmptyString => EmptyString
  | String c r => String (f c) (map_chars f r)
  end.

(** [replace_char a b s]: [s.replace(/a/g, b)] for single characters. *)
Definition replace_char (a b : ascii) : string -> string :=
  map_chars (fun c => if Ascii.eqb c a then b else c).

Fixpoint has_char (a : ascii) (s : string) : bool :=
  match s with
  | EmptyString => false
  | String c r => Ascii.eqb c a || has_char a r
  end.

(** The character class [[0-9A-Za-z]]. *)
Definition is_alnum (c : ascii) : bool :=
  let n := nat_of_ascii c in
  ((48 <=? n) && (n <=? 57)) || ((65 <=? n) && (n <=? 90))
  || ((97 <=? n) && (n <=? 122)).

Fixpoint skip_alnum (s : string) : string :=
  match s with
  | String c r => if is_alnum c then skip_alnum r else s
  | EmptyString => EmptyString
  end.

(** [/^[0-9A-Za-z]+:\//] : a greedy run of at least one alphanumeric
    character followed by [":/"]; the colon is not alphanumeric, so the
    run that matches is the maximal one. *)
Definition has_drive (s : string) : bool :=
  match s with
  | String c r =>
      is_alnum c &&
      match strip_prefix ":/" (skip_alnum r) with
      | Some _ => true
      | None => false
      end
  | EmptyString => false
  end.

(** [/^\/[0-9A-Za-z]+:\//] *)
Definition has_slash_drive (s : string) : bool :=
  match s with
  | String c r => Ascii.eqb c slash && has_drive r
  | EmptyString => false
  end.

(** JavaScript line terminators, which [.] does not match. *)
Definition is_line_terminator (c : ascii) : bool :=
  Ascii.eqb c LF || Ascii.eqb c CR.

Definition lower (c : ascii) : ascii :=
  let n := nat_of_ascii c in
  if (65 <=? n) && (n <=? 90) then ascii_of_nat (n + 32) else c.

(** Case-insensitive [strip_prefix] (the [i] flag); the pattern is
    given in lower case. *)
Fixpoint strip_prefix_ci (p s : string) : option string :=
  match p, s with
  | EmptyString, _ => Some s
  | String a p', String b s' =>
      if Ascii.eqb a (lower b) then strip_prefix_ci p' s' else None
  | String _ _, EmptyString => None
  end.

Fixpoint join (sep : string) (l : list string) : string :=
  match l with
  | [] => ""
  | [x] => x
  | x :: r => x +:+ sep +:+ join sep r
  end.

End Str.

(** ** Path / URL codec *)

(** [path.sep] is ["/"] on POSIX and a backslash on Windows. *)
Inductive platform := Posix | Win32.

Definition path_sep (plat : platform) : ascii :=
  match plat with Posix => Str.slash | Win32 => Str.backslash end.

Definition url2path (plat : platform) (urlPath : string) : string :=
  let nativePath :=
    match Str.strip_prefix "file://" urlPath with
    | Some r => r
    | None => urlPath
    end in
  match plat with
  | Posix => nativePath
  | Win32 =>
      let nativePath :=
        if Str.has_slash_drive nativePath
        then match nativePath with String _ r => r | EmptyString => EmptyString end
        else nativePath in
      Str.replace_char Str.slash (path_sep plat) nativePath
  end.

Definition path2url (plat : platform) (nativePath : string) : string :=
  let urlPath :=
    match plat with
    | Posix => nativePath
    | Win32 =>
        let urlPath := Str.replace_char (path_sep plat) Str.slash nativePath in
        if Str.has_drive urlPath then String Str.slash urlPath else urlPath
    end in
  match urlPath with
  | String c r => if Ascii.eqb c Str.slash then "file:///" +:+ r else urlPath
  | EmptyString => urlPath
  end.

(** The native paths that survive the trip through [path2url] and back:
    on POSIX those that do not begin with ["file://"]; on Windows those
    written with backslashes only that do not begin with a backslash
    followed by a drive-like prefix. *)
Definition roundtrip_ok (plat : platform) (p : string) : bool :=
  match plat with
  | Posix =>
      match Str.strip_prefix "file://" p with Some _ => false | None => true end
  | Win32 =>
      negb (Str.has_char Str.slash p)
      && negb (match p with
               | String c r =>
                   Ascii.eqb c Str.backslash
                   && Str.has_drive (Str.replace_char Str.backslash Str.slash r)
               | EmptyString => false
               end)
  end.

(** [pathName.replace(/.js$/, '/index.js')]: the dot is a wildcard, so
    any character other than a line terminator followed by a final
    ["js"] is replaced. *)
Fixpoint index_name (s : string) : string :=
  match s with
  | String c r =>
      if String.eqb r "js" && negb (Str.is_line_terminator c)
      then "/index.js"
      else String c (index_name r)
  | EmptyString => EmptyString
  end.

(** The replacement the design document words: a trailing [".js"]
    extension becomes ["/index.js"]. *)
Fixpoint index_name_spec (s : string) : string :=
  match s with
  | String c r =>
      if Ascii.eqb c "." && String.eqb r "js"
      then "/index.js"
      else String c (index_name_spec r)
  | EmptyString => EmptyString
  end.

(** ** Repository grouping key

    [rootPath.replace(/((\/|^)node_modules)\/.*/i, '$1')]. *)

Fixpoint drop_line (s : string) : string :=
  match s with
  | String c r => if Str.is_line_terminator c then s else drop_line r
  | EmptyString => EmptyString
  end.

(** [node_modules_at s]: the pattern [node_modules\/.*] matched at the
    head of [s]; returns the text standing for [node_modules] (in its
    original case) and what is left after [.*]. *)
Definition node_modules_at (s : string) : option (string * string) :=
  match Str.strip_prefix_ci "node_modules" s with
  | Some (String c r) =>
      if Ascii.eqb c Str.slash
      then Some (substring 0 12 s, drop_line r)
      else None
  | _ => None
  end.

(** One attempt of the whole pattern at the current position;
    [at_start] tells whether [^] can match here. *)
Definition repo_match_here (at_start : bool) (s : string) : option string :=
  match s with
  | String c r =>
      match (if Ascii.eqb c Str.slash then node_modules_at r else None) with
      | Some (nm, rest) => Some (String c nm +:+ rest)
      | None =>
          if at_start
          then match node_modules_at s with
               | Some (nm, rest) => Some (nm +:+ rest)
               | None => None
               end
          else None
      end
  | EmptyString => None
  end.

Fixpoint repo_scan (at_start : bool) (s : string) : string :=
  match repo_match_here at_start s with
  | Some r => r
  | None =>
      match s with
      | String c r => String c (repo_scan false r)
      | EmptyString => EmptyString
      end
  end.

Definition repo_path (rootPath : string) : string := repo_scan true rootPath.

(** The grouping key in the words of the design document: the root path
    cut right after the first directory, from the left, that is called
    [node_modules] (in any letter case) and has something below it. *)
Definition is_container_prefix (s : string) : bool :=
  match Str.strip_prefix_ci "node_modules" s with
  | Some (String c _) => Ascii.eqb c Str.slash
  | _ => false
  end.

Fixpoint truncate_at (component_start : bool) (s : string) : string :=
  match s with
  | EmptyString => EmptyString
  | String c r =>
      if component_start && is_container_prefix s
      then substring 0 12 s
      else String c (truncate_at (Ascii.eqb c Str.slash) r)
  end.

Definition truncate_at_container (rootPath : string) : string :=
  truncate_at true rootPath.

Fixpoint has_line_terminator (s : string) : bool :=
  match s with
  | EmptyString => false
  | String c r => Str.is_line_terminator c || has_line_terminator r
  end.

(** ** Objects used as tables *)

Module Obj.

(** [o[k]] *)
Fixpoint get {V : Type} (k : string) (o : list (string * V)) : option V :=
  match o with
  | [] => None
  | (k', v) :: r => if String.eqb k' k then Some v else get k r
  end.

(** [o[k] = v]: an existing property keeps its place in the enumeration
    order, a new one goes last. *)
Fixpoint set {V : Type} (k : string) (v : V) (o : list (string * V))
  : list (string * V) :=
  match o with
  | [] => [(k, v)]
  | (k', v') :: r =>
      if String.eqb k' k then (k', v) :: r else (k', v') :: set k v r
  end.

(** [Object.keys(o)] *)
Definition keys {V : Type} (o : list (string * V)) : list string := map fst o.

(** An object built by assignments only has each key once. *)
Definition wf {V : Type} (o : list (string * V)) : Prop := NoDup (keys o).

End Obj.

(** ** Properties every object inherits

    The property names of [Object.prototype] as Node has them: the
    standard ones and those of Annex B. On a plain object without an own
    property of such a name, a read under that name gives the inherited
    value: a function, or [Object.prototype] itself for [__proto__].
    All of them are truthy. *)

Module Proto.

Definition methods : list string :=
  [ "constructor"; "hasOwnProperty"; "isPrototypeOf"; "propertyIsEnumerable";
    "toLocaleString"; "toString"; "valueOf";
    "__defineGetter__"; "__defineSetter__"; "__lookupGetter__"; "__lookupSetter__" ].

Definition inherited (name : string) : bool :=
  String.eqb name "__proto__" || existsb (String.eqb name) methods.

(** The inherited value used as a property key: its conversion to a
    string. *)
Definition key_text (name : string) : string :=
  if String.eqb name "__proto__" then "[object Object]"
  else "function " +:+ (if String.eqb name "constructor" then "Object" else name)
       +:+ "() { [native code] }".

End Proto.

(** [Array.prototype.sort()] with the default comparison, on strings:
    code-unit lexicographic order. *)
Definition sort_strings (l : list string) : list string :=
  merge_sort String.le l.

(** ** Errors, promises and completions *)

Inductive error :=
| InternalModule                 (* new Error('Internal module') *)
| ResolveError (msg : string)    (* rejection of browser-resolve *)
| NormalizeError (msg : string)  (* rejection of the original normalizer *)
| StatError                      (* ENOENT and the like from fs.stat *)
| ReadError (path : string)      (* fs.readFileSync failed *)
| WriteError (path : string)     (* fs.writeFileSync failed *)
| TypeError.                     (* member access on undefined *)

(** The outcome of a promise; [Pending] is a promise that never settles. *)
Inductive promise (A : Type) :=
| Resolved (a : A)
| Rejected (e : error)
| Pending.

Arguments Resolved {A} a.
Arguments Rejected {A} e.
Arguments Pending {A}.

(** The outcome of a synchronous call; [NoFuel] marks a run cut short by
    the fuel of the embedding and never by the program. *)
Inductive completion (A : Type) :=
| Normal (a : A)
| Throws (e : error)
| NoFuel.

Arguments Normal {A} a.
Arguments Throws {A} e.
Arguments NoFuel {A}.

(** ** Package resolver adapter *)

Record PackageSpec := {
  entryPath : option string;
  rootPath : string
}.

(** How a call of browser-resolve ends: with a path, with its own error,
    or never. *)
Inductive resolve_outcome :=
| Found (pathName : string)
| NotFound (msg : string)
| Hung.

(** What one call of browser-resolve does: the manifests it hands to
    [packageFilter], as pairs of [json.name] and [jsonPath] in call
    order, and how it ends. *)
Record Resolution := {
  manifests : list (option string * string);
  resolved : resolve_outcome
}.

Inductive event :=
| EvNormalize (name : string) (parentName : option string) (parentAddress : string)
| EvStat (path : string)
| EvResolve (name filename : string).

(** The collaborators of one [build] call. *)
Record Env := {
  plat : platform;
  basePath : string;
  path_relative : string -> string -> string;
  path_resolve : string -> string -> string;
  path_dirname : string -> string;
  oldNormalize : string -> option string -> string -> promise string;
  fs_stat : string -> bool;
  fs_readFile : string -> option string;
  fs_writeFile : string -> string -> bool;
  resolve : string -> string -> Resolution;
  loader_map : option (list (string * string))
}.

(** The tables of one [build] call and the trace of calls made to the
    collaborators. *)
Record Session := {
  fixTbl : list (string * string);
  repoTbl : list (string * list (string * PackageSpec));
  trace : list event
}.

Definition emptySession : Session :=
  {| fixTbl := []; repoTbl := []; trace := [] |}.

Definition log (e : event) (st : Session) : Session :=
  {| fixTbl := fixTbl st; repoTbl := repoTbl st; trace := trace st ++ [e] |}.

Definition setFix (k v : string) (st : Session) : Session :=
  {| fixTbl := Obj.set k v (fixTbl st); repoTbl := repoTbl st;
     trace := trace st |}.

(** [specTbl = repoTbl[repoPath]; if(!specTbl) repoTbl[repoPath] = specTbl = {};
    specTbl[name] = spec] *)
Definition setRepo (repoPath name : string) (spec : PackageSpec) (st : Session)
  : Session :=
  let specTbl := match Obj.get repoPath (repoTbl st) with
                 | Some t => t
                 | None => []
                 end in
  {| fixTbl := fixTbl st;
     repoTbl := Obj.set repoPath (Obj.set name spec specTbl) (repoTbl st);
     trace := trace st |}.

(** [promise.then(f)] and [promise.catch(h)] with the session threaded
    through the handlers. *)
Definition pthen {A B : Type} (p : promise A * Session)
    (f : A -> Session -> promise B * Session) : promise B * Session :=
  match p with
  | (Resolved a, st) => f a st
  | (Rejected e, st) => (Rejected e, st)
  | (Pending, st) => (Pending, st)
  end.

Definition pcatch {A : Type} (p : promise A * Session)
    (h : error -> Session -> promise A * Session) : promise A * Session :=
  match p with
  | (Rejected e, st) => h e st
  | other => other
  end.

(** [Promise.promisify(fs.stat)(path)] *)
Definition statAsync (E : Env) (path : string) (st : Session)
  : promise unit * Session :=
  (if fs_stat E path then Resolved tt else Rejected StatError,
   log (EvStat path) st).

(** [resolveAsync(name, { filename, packageFilter })]; the two captured
    variables [rootName] and [rootPath] are those of the last manifest
    seen. *)
Definition resolveAsync (E : Env) (name filename : string) (st : Session)
  : promise (string * option (option string * string)) * Session :=
  let r := resolve E name filename in
  (match resolved r with
   | Found pathName => Resolved (pathName, last (manifests r))
   | NotFound msg => Rejected (ResolveError msg)
   | Hung => Pending
   end,
   log (EvResolve name filename) st).

(** The [PackageSpec] built by [findPackage] from the resolved path and
    the captured manifest. *)
Definition makeSpec (E : Env) (name pathName : string)
    (captured : option (option string * string)) : PackageSpec :=
  match captured with
  | Some (Some rootName, jsonPath) =>
      let rootPath := path_dirname E jsonPath in
      if String.eqb rootName name
      then {| entryPath := Some (path2url (plat E) (path_relative E rootPath pathName));
              rootPath := path2url (plat E) (path_relative E (basePath E) rootPath) |}
      else {| entryPath := None;
              rootPath := path2url (plat E) (path_relative E (basePath E) pathName) |}
  | _ =>
      {| entryPath := None;
         rootPath := path2url (plat E) (path_relative E (basePath E) pathName) |}
  end.

(** [findPackage(name, parentName)]. The options of the resolver are
    built first, with [url2path(parentName)]: for an undefined parent
    that call throws on [urlPath.replace] and the resolver is never
    called. Every caller is a promise handler, which turns the throw
    into a rejection. *)
Definition findPackage (E : Env) (name : string) (parentName : option string)
    (st : Session) : promise string * Session :=
  match parentName with
  | None => (Rejected TypeError, st)
  | Some parentName =>
      pthen (resolveAsync E name (url2path (plat E) parentName) st)
        (fun '(pathName, captured) st =>
           if String.eqb pathName name then (Rejected InternalModule, st)
           else
             let spec := makeSpec E name pathName captured in
             let repoPath := repo_path (rootPath spec) in
             (Resolved (path2url (plat E) (path_relative E (basePath E) pathName)),
              setRepo repoPath name spec st))
  end.

(** The specification recorded for [name], read off the repository
    holding it. *)
Definition recorded (repoPath name : string) (st : Session) : option PackageSpec :=
  match Obj.get repoPath (repoTbl st) with
  | Some specTbl => Obj.get name specTbl
  | None => None
  end.

(** The name the declaring package gives itself: [json.name] of the last
    manifest handed to the filter. *)
Definition declaringName (r : Resolution) : option string :=
  match last (manifests r) with
  | Some (n, _) => n
  | None => None
  end.

(** ** Normalization interceptor *)

(** [other = builder.loader.map[name]], kept when [other && other != name]. *)
Definition alias (E : Env) (name : string) : option string :=
  match loader_map E with
  | Some m =>
      match Obj.get name m with
      | Some other =>
          if negb (String.eqb other "") && negb (String.eqb other name)
          then Some other else None
      | None => None
      end
  | None => None
  end.

(** [newNormalize]; [self] is [builder.loader.normalize] as installed at
    the time of the call, and [pathName] is [None] when the variable of
    the caller is still undefined. *)
Definition newNormalize (E : Env)
    (self : string -> option string -> string -> Session -> promise string * Session)
    (name : string) (parentName : option string) (parentAddress : string)
    (pathName : option string) (st : Session) : promise string * Session :=
  match pathName with
  | None => (Rejected TypeError, st)
  | Some pathName =>
      let indexName := index_name pathName in
      match alias E name with
      | Some other => self other parentName parentAddress st
      | None =>
          pcatch
            (pcatch
               (pthen (statAsync E (url2path (plat E) indexName) st)
                  (fun _ st =>
                     let oldPath :=
                       "./" +:+ path_relative E (basePath E) (url2path (plat E) pathName) in
                     let newPath :=
                       "./" +:+ path_relative E (basePath E) (url2path (plat E) indexName) in
                     (Resolved indexName, setFix oldPath newPath st)))
               (fun _ st => findPackage E name parentName st))
            (fun _ st => (Resolved pathName, st))
      end
  end.

(** The function installed as [builder.loader.normalize]. An alias sends
    [newNormalize] back into it; [fuel] bounds that recursion, and a run
    of aliases longer than [fuel] is reported as [Pending]. *)
Fixpoint normalize (fuel : nat) (E : Env) (name : string)
    (parentName : option string) (parentAddress : string)
    (st : Session) : promise string * Session :=
  match fuel with
  | 0 => (Pending, st)
  | S fuel =>
      let st := log (EvNormalize name parentName parentAddress) st in
      match oldNormalize E name parentName parentAddress with
      | Resolved pathName =>
          pcatch
            (pthen (statAsync E (url2path (plat E) pathName) st)
               (fun _ st => (Resolved pathName, st)))
            (fun _ st =>
               newNormalize E (normalize fuel E) name parentName parentAddress
                 (Some pathName) st)
      | Rejected _ =>
          newNormalize E (normalize fuel E) name parentName parentAddress None st
      | Pending => (Pending, st)
      end
  end.

(** Number of calls of the package resolver in a trace. *)
Definition is_resolve (e : event) : bool :=
  match e with EvResolve _ _ => true | _ => false end.

Definition resolve_calls (t : list event) : nat :=
  length (List.filter is_resolve t).

(** ** Config emitter *)

Record BuildOptions := {
  debug : bool;
  sfx : bool;
  bundlePath : option string;
  sourcePath : option string;
  outConfigPath : option string;
  includeConfigList : option (list string);
  mapPackages : option (list string)
}.

Definition TAB : string := String Str.TAB "".
Definition NL : string := String Str.LF "".
Definition DQ : string := String "034"%char "".

Definition quoted (s : string) : string := DQ +:+ s +:+ DQ.

(** The loops that copy every repository of [repoTbl] into one
    [packageTbl]. *)
Definition flattenRepos (repoTbl : list (string * list (string * PackageSpec)))
  : list (string * PackageSpec) :=
  fold_left
    (fun packageTbl repoPath =>
       match Obj.get repoPath repoTbl with
       | Some repo =>
           fold_left
             (fun packageTbl packageName =>
                match Obj.get packageName repo with
                | Some spec => Obj.set packageName spec packageTbl
                | None => packageTbl
                end)
             (Obj.keys repo) packageTbl
       | None => packageTbl
       end)
    (Obj.keys repoTbl) [].

Definition mapRow (packageTbl : list (string * PackageSpec)) (name : string) : string :=
  TAB +:+ TAB +:+ quoted name +:+ ": " +:+
  quoted (match Obj.get name packageTbl with Some s => rootPath s | None => "" end).

Definition mapSection (packageTbl : list (string * PackageSpec)) : string :=
  TAB +:+ "map: {" +:+ NL +:+
  Str.join ("," +:+ NL) (map (mapRow packageTbl) (sort_strings (Obj.keys packageTbl)))
  +:+ NL +:+ TAB +:+ "}".

Definition metaRow (shimPath repoPath : string) : string :=
  TAB +:+ TAB +:+ DQ +:+ repoPath +:+ "/*" +:+ DQ +:+
  ": { globals: { process: " +:+ quoted shimPath +:+ " } }".

(** The shim directives, one for each key of [repoTbl]. *)
Definition metaRows (repoTbl : list (string * list (string * PackageSpec)))
    (shimPath : string) : list string :=
  map (metaRow shimPath) (sort_strings (Obj.keys repoTbl)).

Definition metaSection (repoTbl : list (string * list (string * PackageSpec)))
    (shimPath : string) : string :=
  Str.join NL
    [ TAB +:+ "meta: {";
      Str.join ("," +:+ NL) (metaRows repoTbl shimPath);
      TAB +:+ "}" ].

Definition fixRow (fixTbl : list (string * string)) (path : string) : string :=
  TAB +:+ TAB +:+ TAB +:+ TAB +:+ quoted path +:+ ": " +:+
  quoted (match Obj.get path fixTbl with Some v => v | None => "" end).

(** [entryPath && row]: [None] stands for a falsy value, dropped by the
    [filter] that follows. *)
Definition mainRow (packageTbl : list (string * PackageSpec)) (name : string)
  : option string :=
  match Obj.get name packageTbl with
  | Some {| entryPath := Some e |} =>
      if String.eqb e "" then None
      else Some (TAB +:+ TAB +:+ quoted name +:+ ": { main: " +:+ quoted e +:+ " }")
  | _ => None
  end.

Definition packagesSection (packageTbl : list (string * PackageSpec))
    (fixTbl : list (string * string)) : string :=
  Str.join NL
    [ TAB +:+ "packages: {";
      TAB +:+ TAB +:+ quoted "." +:+ ": {";
      TAB +:+ TAB +:+ TAB +:+ "map: {";
      Str.join ("," +:+ NL) (map (fixRow fixTbl) (Obj.keys fixTbl));
      TAB +:+ TAB +:+ TAB +:+ "}";
      TAB +:+ TAB +:+ "},";
      Str.join ("," +:+ NL)
        (omap (mainRow packageTbl) (sort_strings (Obj.keys packageTbl)));
      TAB +:+ "}" ].

Definition fixSection (fixTbl : list (string * string)) : string :=
  TAB +:+ "packages: {" +:+ NL +:+
  TAB +:+ TAB +:+ quoted "." +:+ ": {" +:+ NL +:+
  TAB +:+ TAB +:+ TAB +:+ "map: {" +:+ NL +:+
  Str.join ("," +:+ NL) (map (fixRow fixTbl) (Obj.keys fixTbl)) +:+ NL +:+
  TAB +:+ TAB +:+ TAB +:+ "}" +:+ NL +:+
  TAB +:+ TAB +:+ "}" +:+ NL +:+
  TAB +:+ "}".

Definition sectionList (repoTbl : list (string * list (string * PackageSpec)))
    (fixTbl : list (string * string)) (shimPath : string) : list string :=
  let packageTbl := flattenRepos repoTbl in
  [ mapSection packageTbl; metaSection repoTbl shimPath;
    packagesSection packageTbl fixTbl ]
  ++ (if decide (length (Obj.keys fixTbl) = 0) then [] else [fixSection fixTbl]).

(** [list.map(path => fs.readFileSync(path))]; the first failing read
    throws. *)
Fixpoint readAll (readFile : string -> option string) (l : list string)
  : completion (list string) :=
  match l with
  | [] => Normal []
  | p :: r =>
      match readFile p with
      | None => Throws (ReadError p)
      | Some text =>
          match readAll readFile r with
          | Normal texts => Normal (text :: texts)
          | other => other
          end
      end
  end.

(** The arguments of one [fs.writeFileSync(path, text)]. *)
Record FileWrite := { write_path : option string; write_text : string }.

(** [writeConfig] up to its last call: [Normal w] is [writeConfig]
    arriving at [fs.writeFileSync] with the arguments [w]. How that call
    ends is for the file system to say; [emitConfig] asks it. *)
Definition writeConfig (readFile : string -> option string) (options : BuildOptions)
    (repoTbl : list (string * list (string * PackageSpec)))
    (fixTbl : list (string * string)) (shimPath : string)
  : completion FileWrite :=
  let sections := sectionList repoTbl fixTbl shimPath in
  match includeConfigList options with
  | None => Throws TypeError
  | Some includes =>
      match readAll readFile includes with
      | Normal texts =>
          Normal {| write_path := outConfigPath options;
                    write_text :=
                      Str.join NL
                        [ "// Autogenerated using cbuild" +:+ Str.join NL texts;
                          "System.config({";
                          Str.join ("," +:+ NL) sections;
                          "});";
                          "" ] |}
      | Throws e => Throws e
      | NoFuel => NoFuel
      end
  end.

(** The last stage of [build]: when [options.outConfigPath] is set, the
    shim is resolved and the configuration written. [None] is a build
    that writes no configuration, [Some w] one whose
    [fs.writeFileSync] returned; a write that throws rejects the stage,
    as every other throw of [writeConfig] does. *)
Definition emitConfig (E : Env) (options : BuildOptions) (st : Session)
  : promise (option FileWrite) :=
  match outConfigPath options with
  | Some (String c out) =>
      let shimName := if debug options then "cbuild/process-dev.js"
                      else "cbuild/process.js" in
      match resolved (resolve E shimName (path_resolve E (basePath E) "package.json")) with
      | Found shimPath =>
          match writeConfig (fs_readFile E) options (repoTbl st) (fixTbl st)
                  (path_relative E (basePath E) shimPath) with
          | Normal w =>
              if fs_writeFile E (String c out) (write_text w)
              then Resolved (Some w)
              else Rejected (WriteError (String c out))
          | Throws e => Rejected e
          | NoFuel => Pending
          end
      | NotFound msg => Rejected (ResolveError msg)
      | Hung => Pending
      end
  | _ => Resolved None
  end.

(** ** Dependency tree reporter *)

Record BuildItem := {
  deps : list string;
  depMap : list (string * string)
}.

(** [tree] lists the properties of [result.tree] in enumeration order. *)
Record BuildResult := {
  entryPoints : option (list string);
  tree : list (string * BuildItem)
}.

(** A [Branch] array: the file name followed by the child branches. *)
#[warnings="-register-all"]
Inductive Branch := Node (name : string) (children : list Branch).

Definition branch_name (b : Branch) : string :=
  match b with Node n _ => n end.

Definition branch_children (b : Branch) : list Branch :=
  match b with Node _ c => c end.

(** [item.depMap[dep]]. A name that [depMap] does not hold reads as what
    [Object.prototype] hands down, or else as [undefined]. Either is
    used by [makeTree] as a property key only, and stands here as the
    key it makes: the text of the inherited value, or the string
    ["undefined"]. *)
Definition depTarget (item : BuildItem) (dep : string) : string :=
  match Obj.get dep (depMap item) with
  | Some target => target
  | None => if Proto.inherited dep then Proto.key_text dep else "undefined"
  end.

(** The state of [makeTree]. Every branch other than [output] is created
    by [report] and stored in [found] under its name, so a branch is
    referred to by that name: [found] maps a name to the children of its
    branch, themselves references, and [output] holds the children of
    the nameless root. *)
Record TreeState := {
  output : list string;
  found : gmap string (list string);
  queue : list string
}.

Definition pushChild (name : string) (l : list string) : list string := l ++ [name].

(** [report(name, branch)]; [branch] is [None] for [output] and
    [Some b] for [found[b]]. The test [!found[name]] is on a plain
    object: it takes a name inherited from [Object.prototype] for one
    that has been found, so such a name is never stored in [found], the
    map of the own properties. *)
Definition report (name : string) (branch : option string) (st : TreeState)
  : TreeState :=
  if Proto.inherited name then st else
  match found st !! name with
  | Some _ => st
  | None =>
      let found' := <[name := []]> (found st) in
      match branch with
      | None =>
          {| output := pushChild name (output st);
             found := found';
             queue := queue st ++ [name] |}
      | Some b =>
          {| output := output st;
             found := alter (pushChild name) b found';
             queue := queue st ++ [name] |}
      end
  end.

Definition reportAll (names : list string) (branch : option string) (st : TreeState)
  : TreeState :=
  fold_left (fun st name => report name branch st) names st.

(** The modules imported by [name]: [item.depMap[dep]] for [dep] of
    [item.deps]. *)
Definition targets (item : BuildItem) : list string :=
  map (depTarget item) (deps item).

(** The names under which the loops over [result.tree] store [true] in
    [importedTbl]. *)
Definition importedNames (result : BuildResult) : gset string :=
  fold_left
    (fun tbl name =>
       match Obj.get name (tree result) with
       | Some item =>
           fold_left (fun tbl dep => {[depTarget item dep]} ∪ tbl) (deps item) tbl
       | None => tbl
       end)
    (Obj.keys (tree result)) ∅.

(** [importedTbl[name]] as the filter tests it. The table is a plain
    object: the test holds for a name stored by the loops and for a name
    inherited from [Object.prototype]. *)
Definition importedTbl (result : BuildResult) (name : string) : bool :=
  Proto.inherited name || bool_decide (name ∈ importedNames result).

(** Entry points when the bundler reported none: the modules for which
    [!importedTbl[name]] holds. *)
Definition inferredEntryPoints (result : BuildResult) : list string :=
  filter (fun name => importedTbl result name = false) (Obj.keys (tree result)).

Definition effectiveEntryPoints (result : BuildResult) : list string :=
  match entryPoints result with
  | Some l => l
  | None => inferredEntryPoints result
  end.

(** The [while(queue.length)] loop. *)
Fixpoint drain (fuel : nat) (result : BuildResult) (st : TreeState)
  : completion TreeState :=
  match fuel with
  | 0 => NoFuel
  | S fuel =>
      match queue st with
      | [] => Normal st
      | name :: rest =>
          let st := {| output := output st; found := found st; queue := rest |} in
          match Obj.get name (tree result) with
          | None => Throws TypeError
          | Some item =>
              drain fuel result
                (fold_left (fun st dep => report (depTarget item dep) (Some name) st)
                   (deps item) st)
          end
      end
  end.

(** Reading the tree out of the store: the branch of [name] with its
    children followed to depth [depth]. *)
Fixpoint reify (depth : nat) (found : gmap string (list string)) (name : string)
  : Branch :=
  Node name
    (match depth with
     | 0 => []
     | S depth =>
         map (reify depth found)
           (match found !! name with Some kids => kids | None => [] end)
     end).

(** Every name given to [report] is an entry point or a dependency
    target, and each turn of the loop takes a different one. *)
Definition candidates (result : BuildResult) : list string :=
  effectiveEntryPoints result ++ flat_map (fun kv => targets (snd kv)) (tree result).

Definition emptyTree : TreeState := {| output := []; found := ∅; queue := [] |}.

(** The two loops of [makeTree]: the entry points are reported under
    the root, then the queue is drained. The fuel is one more than the
    number of candidates, which the loop never uses up. *)
Definition traversal (result : BuildResult) : completion TreeState :=
  drain (S (length (candidates result))) result
    (reportAll (effectiveEntryPoints result) None emptyTree).

Definition makeTree (result : BuildResult) : completion Branch :=
  match traversal result with
  | Normal st =>
      Normal (Node "" (map (reify (size (found st)) (found st)) (output st)))
  | Throws e => Throws e
  | NoFuel => NoFuel
  end.

(** ** The import graph and the shape of the tree *)

(** The modules imported by [name] according to [result.tree]. *)
Definition imports (result : BuildResult) (name : string) : list string :=
  match Obj.get name (tree result) with
  | Some item => targets item
  | None => []
  end.

(** [hops result d name]: [name] is reached from the nameless root in
    [d] hops, the first from the root to an entry point and the others
    along imports, through names none of which [Object.prototype] hands
    down ([name] included). *)
Inductive hops (result : BuildResult) : nat -> string -> Prop :=
| hops_entry e :
    e ∈ effectiveEntryPoints result -> Proto.inherited e = false ->
    hops result 1 e
| hops_import d n m :
    hops result d n -> m ∈ imports result n -> Proto.inherited m = false ->
    hops result (S d) m.

Definition reachable (result : BuildResult) (name : string) : Prop :=
  exists d, hops result d name.

Definition min_hops (result : BuildResult) (name : string) (d : nat) : Prop :=
  hops result d name /\ forall d', hops result d' name -> d <= d'.

(** The names of the branches [k] levels below [b]; level [0] is [b]
    itself. *)
Fixpoint labels_at (k : nat) (b : Branch) : list string :=
  match k with
  | 0 => [branch_name b]
  | S k => flat_map (labels_at k) (branch_children b)
  end.

(** The pairs of a branch [k] levels below [b] and one of its children,
    by name. *)
Fixpoint edges_at (k : nat) (b : Branch) : list (string * string) :=
  match k with
  | 0 => map (fun c => (branch_name b, branch_name c)) (branch_children b)
  | S k => flat_map (edges_at k) (branch_children b)
  end.

(** *** Invariant of the traversal

    [cur] is the branch being filled ([None] for [output]) and [rest]
    the names still to be reported under it. The depth [d] and the parent
    [par] of every name found so far are kept alongside the state. *)

Definition src_imports (result : BuildResult) (s : option string) : list string :=
  match s with
  | None => effectiveEntryPoints result
  | Some n => imports result n
  end.

Definition src_depth (d : string -> nat) (s : option string) : nat :=
  match s with
  | None => 0
  | Some n => d n
  end.

(** The children of a branch. *)
Definition kids (st : TreeState) (s : option string) : list string :=
  match s with
  | None => output st
  | Some n => match found st !! n with Some l => l | None => [] end
  end.

Record shape_inv (d : string -> nat) (par : string -> option string)
    (cur : option string) (st : TreeState) : Prop := {
  si_cur : forall v, cur = Some v -> v ∈ dom (found st) /\ v ∉ queue st;
  si_queue_nodup : NoDup (queue st);
  si_queue_leaf : forall q, q ∈ queue st -> found st !! q = Some [];
  si_kids_nodup : forall s, NoDup (kids st s);
  si_kids_par : forall s n, n ∈ kids st s -> n ∈ dom (found st) /\ par n = s;
  si_par_kids :
    forall n, n ∈ dom (found st) ->
      n ∈ kids st (par n) /\ d n = S (src_depth d (par n))
      /\ forall p, par n = Some p -> p ∈ dom (found st);
  si_depth_bound : forall n, n ∈ dom (found st) -> d n <= size (found st)
}.

Record bfs_inv (result : BuildResult) (d : string -> nat)
    (cur : option string) (rest : list string) (st : TreeState) : Prop := {
  bi_cur_item : forall v, cur = Some v -> is_Some (Obj.get v (tree result));
  bi_rest : forall m, m ∈ rest -> m ∈ src_imports result cur;
  bi_hops : forall n, n ∈ dom (found st) -> hops result (d n) n;
  bi_level : forall n, n ∈ dom (found st) -> d n <= S (src_depth d cur);
  bi_queue_levels :
    exists A B, queue st = A ++ B
                /\ Forall (fun a => d a = src_depth d cur) A
                /\ Forall (fun b => d b = S (src_depth d cur)) B;
  bi_closed_root :
    cur <> None ->
    forall e, e ∈ effectiveEntryPoints result -> Proto.inherited e = false ->
      e ∈ dom (found st) /\ d e <= 1;
  bi_closed :
    forall p, p ∈ dom (found st) -> p ∉ queue st -> cur <> Some p ->
      is_Some (Obj.get p (tree result))
      /\ forall m, m ∈ imports result p -> Proto.inherited m = false ->
           m ∈ dom (found st) /\ d m <= S (d p);
  bi_closed_cur :
    forall m, m ∈ src_imports result cur -> Proto.inherited m = false ->
      m ∈ rest \/ (m ∈ dom (found st) /\ d m <= S (src_depth d cur));
  bi_kids : forall s n, n ∈ kids st s -> n ∈ src_imports result s
}.

(** The names one level further down. *)
Fixpoint level (st : TreeState) (k : nat) : list string :=
  match k with
  | 0 => output st
  | S k => flat_map (fun n => kids st (Some n)) (level st k)
  end.

(** [done] lists the names taken off the queue so far, [cur] last; with
    the queue behind it, it is the order in which names were found. *)
Record order_inv (result : BuildResult) (d : string -> nat)
    (par : string -> option string) (cur : option string)
    (done : list string) (st : TreeState) : Prop := {
  oi_cur :
    match cur with
    | None => done = []
    | Some v => exists l, done = l ++ [v]
    end;
  oi_nodup : NoDup (done ++ queue st);
  oi_dom : forall x, x ∈ done ++ queue st <-> x ∈ dom (found st);
  oi_levels :
    forall k, level st k = filter (fun x => d x = S k) (done ++ queue st);
  oi_leaves :
    forall n, n ∈ dom (found st) -> d n = S (src_depth d cur) ->
      kids st (Some n) = [];
  oi_first :
    forall n p, n ∈ dom (found st) -> par n = Some p ->
      exists l1 l2, done = l1 ++ p :: l2
                    /\ forall q, q ∈ l1 -> n ∉ imports result q
}.

(** The depth and parent of the name just reported. *)
Definition upd {A : Type} (f : string -> A) (m : string) (a : A) : string -> A :=
  fun x => if decide (x = m) then a else f x.

(** Taking the next name off the queue. *)
Definition pop (st : TreeState) (rest : list string) : TreeState :=
  {| output := output st; found := found st; queue := rest |}.

(** The names [k] levels below the branch of [n] in the store. *)
Fixpoint desc (st : TreeState) (k : nat) (n : string) : list string :=
  match k with
  | 0 => [n]
  | S k => flat_map (desc st k) (kids st (Some n))
  end.

(** What is left to do: the candidates not found yet and the queue. *)
Definition potential (result : BuildResult) (st : TreeState) : nat :=
  size (list_to_set (candidates result) ∖ dom (found st) : gset string)
  + length (queue st).

(** ** Sample collaborators

    A POSIX-flavoured [path.relative] and [path.dirname], good for the
    absolute paths of the examples below (a path under [from] loses that
    prefix; the directory of a path is what precedes its last slash). *)

Module Sample.

Definition relative (from to : string) : string :=
  match Str.strip_prefix (from +:+ "/") to with
  | Some r => r
  | None => to
  end.

Fixpoint dirname (s : string) : string :=
  match s with
  | EmptyString => EmptyString
  | String c r => if Str.has_char Str.slash r then String c (dirname r) else EmptyString
  end.

Definition pathResolve (dir file : string) : string := dir +:+ "/" +:+ file.

(** A project at [/proj] described by the files that exist, the original
    normalizer, the resolver and the loader's alias map. *)
Definition env (files : list string)
    (normalizer : string -> promise string)
    (resolver : string -> Resolution)
    (aliases : option (list (string * string))) : Env :=
  {| plat := Posix;
     basePath := "/proj";
     path_relative := relative;
     path_resolve := pathResolve;
     path_dirname := dirname;
     oldNormalize := fun name _ _ => normalizer name;
     fs_stat := fun p => bool_decide (p ∈ files);
     fs_readFile := fun _ => None;
     fs_writeFile := fun _ _ => true;
     resolve := fun name _ => resolver name;
     loader_map := aliases |}.

(** The original normalizer of the examples: a name becomes a file URL
    under the base directory, with the [.js] extension added. *)
Definition urlOf (name : string) : promise string :=
  Resolved ("file:///proj/" +:+ name +:+ ".js").

Definition noPackage (name : string) : Resolution :=
  {| manifests := []; resolved := NotFound "Cannot find module" |}.

Definition options (includes : option (list string)) : BuildOptions :=
  {| debug := false; sfx := false; bundlePath := None; sourcePath := None;
     outConfigPath := Some "/proj/config-npm.js";
     includeConfigList := includes; mapPackages := None |}.

Definition item (l : list string) : BuildItem :=
  {| deps := l; depMap := map (fun x => (x, x)) l |}.

End Sample.

(** ** Further notions used by the properties below *)

(** A path of the fix table: it begins with ["./"]. *)
Definition dot_slash (s : string) : bool :=
  match Str.strip_prefix "./" s with
  | Some _ => true
  | None => false
  end.

Definition fix_prefixed (tbl : list (string * string)) : Prop :=
  Forall (fun kv => dot_slash (fst kv) = true /\ dot_slash (snd kv) = true) tbl.

(** The assignments [tbl[name] = spec] for the pairs of [l], in order. *)
Definition assign_all {V : Type} (l acc : list (string * V)) : list (string * V) :=
  fold_left (fun acc kv => Obj.set (fst kv) (snd kv) acc) l acc.

(** All the entries of all the repositories, in enumeration order. *)
Definition repo_entries (repoTbl : list (string * list (string * PackageSpec)))
  : list (string * PackageSpec) :=
  concat (map snd repoTbl).

(** ** The earlier revision of the resolver adapter

    In [src/cbuild.ts] the session keeps a table from package names to
    entry paths and a table whose keys are the repository paths;
    browser-resolve is called without a [packageFilter]. As in the
    later revision, [url2path(parentName)] is evaluated first and throws
    for an undefined parent. *)

Record SessionV1 := {
  pathTbl1 : list (string * string);
  fixTbl1 : list (string * string);
  repoTbl1 : list (string * bool);
  trace1 : list event
}.

Definition findPackageV1 (E : Env) (name : string) (parentName : option string)
    (st : SessionV1) : promise string * SessionV1 :=
  match parentName with
  | None => (Rejected TypeError, st)
  | Some parentName =>
      let filename := url2path (plat E) parentName in
      let st := {| pathTbl1 := pathTbl1 st; fixTbl1 := fixTbl1 st;
                   repoTbl1 := repoTbl1 st;
                   trace1 := trace1 st ++ [EvResolve name filename] |} in
      match resolved (resolve E name filename) with
      | Found pathName =>
          if String.eqb pathName name then (Rejected InternalModule, st)
          else
            let pathName := path2url (plat E) (path_relative E (basePath E) pathName) in
            (Resolved pathName,
             {| pathTbl1 := Obj.set name pathName (pathTbl1 st);
                fixTbl1 := fixTbl1 st;
                repoTbl1 := Obj.set (repo_path pathName) true (repoTbl1 st);
                trace1 := trace1 st |})
      | NotFound msg => (Rejected (ResolveError msg), st)
      | Hung => (Pending, st)
      end
  end.

(** The names an alias chain leads to from [name]: [name] itself, and
    whatever the alias of such a name is. *)
Definition aliases_to (E : Env) : string -> string -> Prop :=
  rtc (fun a b => alias E a = Some b).

(** The names of [l] not in [seen], each at its first occurrence. *)
Fixpoint uniq_from (seen : gset string) (l : list string) : list string :=
  match l with
  | [] => []
  | x :: l =>
      if decide (x ∈ seen) then uniq_from seen l
      else x :: uniq_from ({[x]} ∪ seen) l
  end.
(** * Properties *)

(** ** Path / URL codec *)

Section Codec.

Local Abbreviation to_slashes := (Str.replace_char Str.backslash Str.slash).
Local Abbreviation to_backslashes := (Str.replace_char Str.slash Str.backslash).

Lemma strip_prefix_Some p s r : Str.strip_prefix p s = Some r → s = p +:+ r.
Proof.
  revert s. induction p as [|a p IH]; intros s; simpl.
  - by intros [= ->].
  - destruct s as [|b s]; [done|].
    destruct (Ascii.eqb_spec a b) as [->|]; [|done].
    intros H. by rewrite (IH _ H).
Qed.

Lemma append_length p r :
  String.length (p +:+ r) = String.length p + String.length r.
Proof. induction p as [|a p IH]; simpl; [done | by rewrite IH]. Qed.

Lemma map_chars_length f s : String.length (Str.map_chars f s) = String.length s.
Proof. induction s as [|c s IH]; simpl; [done | by rewrite IH]. Qed.

(** Turning separators into slashes and back gives the path again
    exactly when it had no slash of its own. *)
Lemma replace_back s :
  to_backslashes (to_slashes s) = s ↔ Str.has_char Str.slash s = false.
Proof.
  unfold Str.replace_char. induction s as [|c s IH]; simpl; [done|].
  destruct (Ascii.eqb_spec c Str.backslash) as [->|Hb].
  - simpl. rewrite <- IH. split; [by intros [= ?] | by intros ->].
  - destruct (Ascii.eqb_spec c Str.slash) as [->|Hs]; simpl.
    + split; [intros [= ?]; done | done].
    + rewrite <- IH. split; [by intros [= ?] | by intros ->].
Qed.

Lemma file_scheme_has_drive u r :
  Str.strip_prefix "file://" u = Some r → Str.has_drive u = true.
Proof. by intros ->%strip_prefix_Some. Qed.

Lemma has_slash_drive_slash u :
  Str.has_slash_drive (String Str.slash u) = Str.has_drive u.
Proof. reflexivity. Qed.

Lemma url2path_win32_file u :
  url2path Win32 ("file:///" +:+ u) =
  to_backslashes (if Str.has_drive u then u else String Str.slash u).
Proof.
  unfold url2path.
  replace (Str.strip_prefix "file://" ("file:///" +:+ u))
    with (Some (String Str.slash u)) by reflexivity.
  cbv zeta. rewrite has_slash_drive_slash.
  destruct (Str.has_drive u); reflexivity.
Qed.

Lemma url2path_win32_plain u :
  Str.has_drive u = false → Str.has_slash_drive u = false →
  url2path Win32 u = to_backslashes u.
Proof.
  intros Hd Hsd. unfold url2path.
  destruct (Str.strip_prefix "file://" u) as [r|] eqn:Hp.
  - apply file_scheme_has_drive in Hp. congruence.
  - cbv zeta. by rewrite Hsd.
Qed.

Lemma path2url_win32_cases p :
  path2url Win32 p =
  let u := to_slashes p in
  if Str.has_drive u then "file:///" +:+ u
  else match u with
       | String c r => if Ascii.eqb c Str.slash then "file:///" +:+ r else u
       | EmptyString => u
       end.
Proof.
  unfold path2url. cbn [path_sep]. cbv zeta.
  destruct (Str.has_drive _); reflexivity.
Qed.

Lemma roundtrip_posix p :
  url2path Posix (path2url Posix p) = p ↔ roundtrip_ok Posix p = true.
Proof.
  unfold url2path, path2url, roundtrip_ok.
  destruct p as [|c r]; [done|].
  destruct (Ascii.eqb_spec c Str.slash) as [->|Hc].
  - done.
  - destruct (Str.strip_prefix "file://" (String c r)) as [r'|] eqn:Hp; [|done].
    split; [|done]. intros ->. apply strip_prefix_Some in Hp.
    apply (f_equal String.length) in Hp. rewrite append_length in Hp.
    simpl in Hp. lia.
Qed.

Lemma to_slashes_head c r :
  to_slashes (String c r) =
  String (if Ascii.eqb c Str.backslash then Str.slash else c) (to_slashes r).
Proof. reflexivity. Qed.

Lemma roundtrip_win32 p :
  url2path Win32 (path2url Win32 p) = p ↔ roundtrip_ok Win32 p = true.
Proof.
  unfold roundtrip_ok. rewrite andb_true_iff, !negb_true_iff, <- replace_back.
  rewrite path2url_win32_cases. cbv zeta.
  destruct (Str.has_drive (to_slashes p)) eqn:Hdrive.
  - (* a drive prefix: the slash put in front is taken off again *)
    rewrite url2path_win32_file, Hdrive.
    split; [intros H; split; [done|] | by intros [? _]].
    destruct p as [|c r]; [done|].
    destruct (Ascii.eqb_spec c Str.backslash) as [->|]; [|done].
    rewrite to_slashes_head, Ascii.eqb_refl in Hdrive. discriminate Hdrive.
  - destruct p as [|c r]; [done|].
    rewrite to_slashes_head in *.
    destruct (Ascii.eqb_spec c Str.backslash) as [->|Hcb].
    + (* a leading separator *)
      rewrite Ascii.eqb_refl, url2path_win32_file. cbn [andb].
      destruct (Str.has_drive (to_slashes r)) eqn:Hd0.
      * split; [|by intros [_ ?]].
        intros H. apply (f_equal String.length) in H.
        unfold Str.replace_char in H. rewrite !map_chars_length in H.
        simpl in H. lia.
      * split; [by intros ? | by intros [? _]].
    + cbn [andb].
      destruct (Ascii.eqb_spec c Str.slash) as [->|Hcs].
      * (* a path that begins with a slash of its own *)
        rewrite url2path_win32_file.
        split; [|by intros [[=] _]].
        destruct (Str.has_drive (to_slashes r)).
        -- intros H. apply (f_equal String.length) in H.
           unfold Str.replace_char in H. rewrite !map_chars_length in H.
           simpl in H. lia.
        -- intros [= ?].
      * (* a relative path *)
        rewrite url2path_win32_plain; [| done |].
        -- split; [by intros ? | by intros [? _]].
        -- simpl. by apply Ascii.eqb_neq in Hcs as ->.
Qed.

(** C7, as the code has it. Both conversions are functions on strings,
    defined everywhere and reading nothing but their argument. A native
    path comes back from [path2url] and [url2path] exactly when it is
    accepted by [roundtrip_ok]: on POSIX, it does not begin with
    ["file://"]; on Windows, it has no forward slash and does not begin
    with a backslash followed by a drive-like prefix. *)
Theorem url2path_path2url plat p :
  url2path plat (path2url plat p) = p ↔ roundtrip_ok plat p = true.
Proof. destruct plat; [apply roundtrip_posix | apply roundtrip_win32]. Qed.

(** C7 as stated fails on native paths that are valid on their platform:
    a Windows path written with forward slashes, and a relative POSIX
    path whose first directory is called [file:]. *)
Lemma url2path_path2url_counterexample :
  url2path Win32 (path2url Win32 "C:/proj/a.js") = "C:\proj\a.js"
  ∧ url2path Win32 (path2url Win32 "C:/proj/a.js") ≠ "C:/proj/a.js"
  ∧ url2path Posix (path2url Posix "file://x/a.js") = "x/a.js"
  ∧ url2path Posix (path2url Posix "file://x/a.js") ≠ "file://x/a.js".
Proof. split_and!; [reflexivity | discriminate | reflexivity | discriminate]. Qed.

Example roundtrip_examples :
  url2path Posix (path2url Posix "/proj/src/a.js") = "/proj/src/a.js"
  ∧ path2url Posix "/proj/src/a.js" = "file:///proj/src/a.js"
  ∧ path2url Posix "node_modules/foo" = "node_modules/foo"
  ∧ path2url Win32 "C:\proj\a.js" = "file:///C:/proj/a.js"
  ∧ url2path Win32 "file:///C:/proj/a.js" = "C:\proj\a.js".
Proof. split_and!; reflexivity. Qed.

End Codec.

(** ** Repository grouping key *)

Section GroupingKey.

Lemma drop_line_clean s : has_line_terminator s = false → drop_line s = "".
Proof.
  induction s as [|c r IH]; simpl; [done|].
  intros [Hc Hr]%orb_false_iff. rewrite Hc. by apply IH.
Qed.

Lemma strip_prefix_ci_clean p s r :
  Str.strip_prefix_ci p s = Some r →
  has_line_terminator s = false → has_line_terminator r = false.
Proof.
  revert s. induction p as [|a p IH]; intros s; simpl.
  - by intros [= ->].
  - destruct s as [|b s]; [done|]. destruct (Ascii.eqb a (Str.lower b)); [|done].
    intros H. simpl. intros [_ Hs]%orb_false_iff. by apply (IH s).
Qed.

(** How the pattern of the code and the wording agree on a single
    position. *)
Lemma node_modules_at_container s :
  has_line_terminator s = false →
  node_modules_at s =
  if is_container_prefix s then Some (substring 0 12 s, "") else None.
Proof.
  intros Hs. unfold node_modules_at, is_container_prefix.
  destruct (Str.strip_prefix_ci "node_modules" s) as [[|c r]|] eqn:Hp; [done| |done].
  destruct (Ascii.eqb c Str.slash); [|done].
  apply strip_prefix_ci_clean in Hp; [|done].
  simpl in Hp. apply orb_false_iff in Hp as [_ Hr]. by rewrite drop_line_clean.
Qed.

Lemma append_empty_r s : s +:+ "" = s.
Proof. induction s as [|c s IH]; [done|]. by rewrite <- IH at 2. Qed.

Lemma is_container_prefix_slash r : is_container_prefix (String Str.slash r) = false.
Proof. reflexivity. Qed.

Lemma truncate_at_no_container s :
  is_container_prefix s = false → truncate_at true s = truncate_at false s.
Proof. intros H. destruct s as [|c r]; [done|]. cbn [truncate_at]. by rewrite H. Qed.

Lemma repo_scan_truncate_inner s :
  has_line_terminator s = false → repo_scan false s = truncate_at false s.
Proof.
  induction s as [|c r IH]; [done|].
  intros Hs. pose proof Hs as Hs'. simpl in Hs'. apply orb_false_iff in Hs' as [_ Hr].
  cbn [repo_scan repo_match_here truncate_at andb].
  destruct (Ascii.eqb_spec c Str.slash) as [->|Hc].
  - rewrite (node_modules_at_container r Hr).
    destruct (is_container_prefix r) eqn:Hcp.
    + destruct r as [|c1 r1]; [done|].
      cbn [truncate_at andb]. rewrite Hcp. by rewrite append_empty_r.
    + rewrite (truncate_at_no_container r Hcp). by rewrite IH.
  - by rewrite IH.
Qed.

(** The key computed by the code is the truncation of the wording on
    every root path in which no line terminator occurs. *)
Lemma repo_path_truncate s :
  has_line_terminator s = false → repo_path s = truncate_at_container s.
Proof.
  intros Hs. unfold repo_path, truncate_at_container.
  destruct s as [|c r]; [done|].
  pose proof Hs as Hs'. simpl in Hs'. apply orb_false_iff in Hs' as [_ Hr].
  cbn [repo_scan repo_match_here truncate_at andb].
  rewrite (node_modules_at_container r Hr), (node_modules_at_container _ Hs).
  destruct (Ascii.eqb_spec c Str.slash) as [->|Hc].
  - rewrite is_container_prefix_slash.
    destruct (is_container_prefix r) eqn:Hcp.
    + destruct r as [|c1 r1]; [done|].
      cbn [truncate_at andb]. rewrite Hcp. by rewrite append_empty_r.
    + rewrite (truncate_at_no_container r Hcp). by rewrite repo_scan_truncate_inner.
  - destruct (is_container_prefix (String c r)) eqn:Hcp.
    + by rewrite append_empty_r.
    + by rewrite repo_scan_truncate_inner.
Qed.

(** *** Nested containers *)

Lemma append_assoc a b c : (a +:+ b) +:+ c = a +:+ (b +:+ c).
Proof.
  induction a as [|x a IH]; [done|].
  change (String x ((a +:+ b) +:+ c) = String x (a +:+ (b +:+ c))). by rewrite IH.
Qed.

Lemma strip_prefix_ci_split p s r :
  Str.strip_prefix_ci p s = Some r →
  ∃ m, s = m +:+ r
       ∧ String.length m = String.length p
       ∧ (∀ r', Str.strip_prefix_ci p (m +:+ r') = Some r')
       ∧ (Str.has_char Str.slash p = false → Str.has_char Str.slash m = false).
Proof.
  revert s. induction p as [|a p IH]; intros s; simpl.
  - intros [= ->]. by exists "".
  - destruct s as [|b s]; [done|].
    destruct (Ascii.eqb a (Str.lower b)) eqn:Hab; [|done].
    intros (m & -> & Hlen & Hmatch & Hslash)%IH.
    exists (String b m). split_and!.
    + done.
    + simpl. by rewrite Hlen.
    + intros r'. change (String b m +:+ r') with (String b (m +:+ r')).
      simpl. by rewrite Hab.
    + intros [Ha Hp]%orb_false_iff. simpl. rewrite (Hslash Hp), orb_false_r.
      destruct (Ascii.eqb_spec b Str.slash) as [->|]; [|done].
      apply Ascii.eqb_eq in Hab. subst a. done.
Qed.

Lemma substring_prefix m r : substring 0 (String.length m) (m +:+ r) = m.
Proof.
  induction m as [|c m IH]; simpl.
  - by destruct r.
  - change (String c m +:+ r) with (String c (m +:+ r)). simpl. by rewrite IH.
Qed.

(** A path that begins with a container directory: the directory name
    and what lies below it. *)
Lemma is_container_prefix_split s :
  is_container_prefix s = true →
  ∃ nm r, s = nm +:+ String Str.slash r
          ∧ String.length nm = 12
          ∧ Str.has_char Str.slash nm = false
          ∧ ∀ r', is_container_prefix (nm +:+ String Str.slash r') = true.
Proof.
  unfold is_container_prefix.
  destruct (Str.strip_prefix_ci "node_modules" s) as [[|c r]|] eqn:Hp; [done| |done].
  intros ->%Ascii.eqb_eq.
  apply strip_prefix_ci_split in Hp as (m & -> & Hlen & Hmatch & Hslash).
  exists m, r. split_and!.
  - done.
  - exact Hlen.
  - by apply Hslash.
  - intros r'. by rewrite Hmatch.
Qed.



Lemma has_line_terminator_app a b :
  has_line_terminator (a +:+ b) = has_line_terminator a || has_line_terminator b.
Proof.
  induction a as [|c a IH]; [done|].
  change (String c a +:+ b) with (String c (a +:+ b)). simpl. by rewrite IH, orb_assoc.
Qed.


Example repo_path_examples :
  repo_path "node_modules/x" = "node_modules"
  ∧ repo_path "node_modules/y/node_modules/z" = "node_modules"
  ∧ repo_path "../lib/Node_Modules/y" = "../lib/Node_Modules"
  ∧ repo_path "vendor/x" = "vendor/x"
  ∧ repo_path "my_node_modules/x" = "my_node_modules/x".
Proof. split_and!; reflexivity. Qed.

End GroupingKey.

(** ** Tables *)

Section ObjFacts.
Context {V : Type}.
Implicit Types (o : list (string * V)) (k : string) (v : V).

Lemma obj_get_set_eq o k v : Obj.get k (Obj.set k v o) = Some v.
Proof.
  induction o as [|[k' v'] o IH]; simpl.
  - by rewrite String.eqb_refl.
  - destruct (String.eqb k' k) eqn:Hk; simpl; rewrite Hk; [done | exact IH].
Qed.

Lemma obj_get_set_ne o k k' v : k ≠ k' → Obj.get k' (Obj.set k v o) = Obj.get k' o.
Proof.
  intros Hne. induction o as [|[k0 v0] o IH]; simpl.
  - destruct (String.eqb_spec k k'); [done | reflexivity].
  - destruct (String.eqb_spec k0 k) as [->|Hk0]; simpl.
    + destruct (String.eqb_spec k k'); [done | reflexivity].
    + destruct (String.eqb_spec k0 k'); [reflexivity | exact IH].
Qed.

Lemma obj_get_Some_In o k v : Obj.get k o = Some v → In (k, v) o.
Proof.
  induction o as [|[k0 v0] o IH]; simpl; [done|].
  destruct (String.eqb_spec k0 k) as [->|Hne].
  - intros [= ->]. by left.
  - intros H. right. by apply IH.
Qed.

Lemma obj_get_None_keys o k : Obj.get k o = None ↔ k ∉ Obj.keys o.
Proof.
  induction o as [|[k0 v0] o IH]; simpl.
  - split; [intros _; apply not_elem_of_nil | done].
  - rewrite not_elem_of_cons. destruct (String.eqb_spec k0 k) as [->|Hne].
    + split; [done | intros [? _]; done].
    + rewrite IH. split; [intros ?; split; [congruence | done] | intros [_ ?]; done].
Qed.



End ObjFacts.

(** ** Package resolver adapter *)

Section Resolver.
Variable E : Env.

Lemma recorded_setRepo repoPath name spec st :
  recorded repoPath name (setRepo repoPath name spec st) = Some spec.
Proof.
  unfold recorded, setRepo; simpl. rewrite obj_get_set_eq. apply obj_get_set_eq.
Qed.

(** What [findPackage] does for a defined parent, case by case on the
    resolver's answer. *)
Lemma findPackage_cases name parentName st :
  let r := resolve E name (url2path (plat E) parentName) in
  let st1 := log (EvResolve name (url2path (plat E) parentName)) st in
  findPackage E name (Some parentName) st =
  match resolved r with
  | Found pathName =>
      if String.eqb pathName name then (Rejected InternalModule, st1)
      else
        let spec := makeSpec E name pathName (last (manifests r)) in
        (Resolved (path2url (plat E) (path_relative E (basePath E) pathName)),
         setRepo (repo_path (rootPath spec)) name spec st1)
  | NotFound msg => (Rejected (ResolveError msg), st1)
  | Hung => (Pending, st1)
  end.
Proof.
  unfold findPackage, resolveAsync; simpl.
  destruct (resolved _); reflexivity.
Qed.

(** C5. [findPackage] fails with the internal-module error exactly when
    the resolver, called for a defined parent, answers with the bare
    requested name, and then neither the fix table nor the repository
    table (which holds every recorded PackageSpec) has changed. *)
Theorem findPackage_internal_module name parent st :
  let r := findPackage E name parent st in
  (fst r = Rejected InternalModule
   ↔ ∃ parentName,
       parent = Some parentName
       ∧ resolved (resolve E name (url2path (plat E) parentName)) = Found name)
  ∧ (fst r = Rejected InternalModule
     → repoTbl (snd r) = repoTbl st ∧ fixTbl (snd r) = fixTbl st).
Proof.
  cbv zeta. destruct parent as [parentName|].
  2: { split; [|done]. split; [done | by intros (? & ? & _)]. }
  rewrite findPackage_cases; cbv zeta.
  destruct (resolved _) as [pathName|msg|] eqn:Hres.
  - destruct (String.eqb_spec pathName name) as [->|Hne]; simpl.
    + split; [split; [by exists parentName | done] | done].
    + split; [|done]. split; [done|].
      intros (pn & [= <-] & Hpn). rewrite Hres in Hpn. by injection Hpn.
  - simpl. split; [|done]. split; [done|].
    intros (pn & [= <-] & Hpn). by rewrite Hres in Hpn.
  - simpl. split; [|done]. split; [done|].
    intros (pn & [= <-] & Hpn). by rewrite Hres in Hpn.
Qed.

(** C4, as the code has it. A successful [findPackage] records one
    PackageSpec under the requested name. It has an [entryPath] exactly
    when the declaring package's own name is the requested name; its
    [rootPath] is then the package's root directory relative to the base
    directory, and otherwise the resolved file relative to the base
    directory, in URL form both times. *)
Theorem findPackage_records_spec name parentName st p st' :
  findPackage E name (Some parentName) st = (Resolved p, st') →
  let r := resolve E name (url2path (plat E) parentName) in
  ∃ pathName spec,
    resolved r = Found pathName
    ∧ recorded (repo_path (rootPath spec)) name st' = Some spec
    ∧ (is_Some (entryPath spec) ↔ declaringName r = Some name)
    ∧ (∀ jsonPath, last (manifests r) = Some (Some name, jsonPath) →
         entryPath spec =
           Some (path2url (plat E) (path_relative E (path_dirname E jsonPath) pathName))
         ∧ rootPath spec =
           path2url (plat E) (path_relative E (basePath E) (path_dirname E jsonPath)))
    ∧ (declaringName r ≠ Some name →
         rootPath spec = path2url (plat E) (path_relative E (basePath E) pathName)).
Proof.
  rewrite findPackage_cases; cbv zeta.
  destruct (resolved _) as [pathName|msg|] eqn:Hres; [|done..].
  destruct (String.eqb_spec pathName name) as [->|Hne]; [done|].
  intros [= <- <-]. eexists pathName, _. split; [done|].
  split; [apply recorded_setRepo|].
  unfold declaringName, makeSpec.
  destruct (last (manifests _)) as [[[rootName|] jsonPath]|]; simpl.
  - destruct (String.eqb_spec rootName name) as [->|Hrn]; simpl.
    + split_and!; [split; eauto | by intros ? [= <-] | done].
    + split_and!; [split; [by intros [? ?] | by intros [= ?]] | | done].
      intros ? [= ? ?]. done.
  - split_and!; [split; [by intros [? ?] | done] | done | done].
  - split_and!; [split; [by intros [? ?] | done] | done | done].
Qed.

End Resolver.

(** The package [foo] resolved to its own entry point. *)
Lemma findPackage_records_spec_witness :
  let E := Sample.env [] Sample.urlOf
             (fun _ => {| manifests := [(Some "foo", "/proj/node_modules/foo/package.json")];
                          resolved := Found "/proj/node_modules/foo/main.js" |}) None in
  ∃ pathName spec,
    resolved (resolve E "foo" (url2path (plat E) "file:///proj/src/a.js")) = Found pathName
    ∧ recorded (repo_path (rootPath spec)) "foo"
        (snd (findPackage E "foo" (Some "file:///proj/src/a.js") emptySession)) = Some spec
    ∧ entryPath spec = Some "main.js" ∧ rootPath spec = "node_modules/foo".
Proof.
  intros E.
  destruct (findPackage_records_spec E "foo" "file:///proj/src/a.js" emptySession
              "node_modules/foo/main.js"
              (snd (findPackage E "foo" (Some "file:///proj/src/a.js") emptySession)))
    as (pathName & spec & Hres & Hrec & _ & Hsame & _); [reflexivity|].
  exists pathName, spec. split; [exact Hres|]. split; [exact Hrec|].
  injection Hres as <-.
  exact (Hsame "/proj/node_modules/foo/package.json" eq_refl).
Defined.

(** C4 as stated fails: a module inside the package [foo], requested as
    [foo/lib/bar], is recorded with the path of the resolved file as its
    [rootPath], not with the root directory of [foo]. *)
Lemma findPackage_rootPath_counterexample :
  let E := Sample.env [] Sample.urlOf
             (fun _ => {| manifests := [(Some "foo", "/proj/node_modules/foo/package.json")];
                          resolved := Found "/proj/node_modules/foo/lib/bar.js" |}) None in
  let r := findPackage E "foo/lib/bar" (Some "file:///proj/src/a.js") emptySession in
  fst r = Resolved "node_modules/foo/lib/bar.js"
  ∧ recorded "node_modules" "foo/lib/bar" (snd r)
    = Some {| entryPath := None; rootPath := "node_modules/foo/lib/bar.js" |}
  ∧ path2url (plat E)
      (path_relative E (basePath E) (path_dirname E "/proj/node_modules/foo/package.json"))
    = "node_modules/foo"
  ∧ ¬ (∀ spec, recorded "node_modules" "foo/lib/bar" (snd r) = Some spec →
         rootPath spec =
         path2url (plat E)
           (path_relative E (basePath E)
              (path_dirname E "/proj/node_modules/foo/package.json"))).
Proof.
  cbv zeta. split_and!; [reflexivity..|].
  intros H. specialize (H _ eq_refl). discriminate H.
Qed.

(** ** Normalization interceptor *)

(** Where the design document's replacement of a trailing [.js] does
    something, the pattern of the code does the same thing. *)
Lemma index_name_spec_agree s :
  index_name_spec s ≠ s → index_name s = index_name_spec s.
Proof.
  induction s as [|c r IH]; [done|]. cbn [index_name index_name_spec].
  destruct (String.eqb_spec r "js") as [->|Hr].
  - destruct (Ascii.eqb_spec c ".") as [->|Hc]; [reflexivity|].
    intros H. by destruct H.
  - rewrite andb_false_r. cbn [andb]. intros H. f_equal. apply IH. congruence.
Qed.

Example index_name_wildcard :
  index_name "file:///proj/nodejs" = "file:///proj/nod/index.js"
  ∧ index_name_spec "file:///proj/nodejs" = "file:///proj/nodejs".
Proof. split; reflexivity. Qed.

Section Interceptor.
Variable E : Env.

Lemma resolve_calls_app t1 t2 :
  resolve_calls (t1 ++ t2) = resolve_calls t1 + resolve_calls t2.
Proof. unfold resolve_calls. by rewrite List.filter_app, length_app. Qed.

(** The interceptor when the candidate path is missing. *)
Lemma normalize_missing fuel name parentName parentAddress st pathName :
  oldNormalize E name parentName parentAddress = Resolved pathName →
  fs_stat E (url2path (plat E) pathName) = false →
  normalize (S fuel) E name parentName parentAddress st =
  newNormalize E (normalize fuel E) name parentName parentAddress (Some pathName)
    (log (EvStat (url2path (plat E) pathName))
       (log (EvNormalize name parentName parentAddress) st)).
Proof.
  intros Hold Hmiss. cbn [normalize]. rewrite Hold.
  unfold statAsync. rewrite Hmiss. reflexivity.
Qed.

(** [newNormalize] for a name that the alias map does not redirect. *)
Lemma newNormalize_unaliased self name parentName parentAddress st pathName :
  alias E name = None →
  let indexName := index_name pathName in
  let st1 := log (EvStat (url2path (plat E) indexName)) st in
  newNormalize E self name parentName parentAddress (Some pathName) st =
  if fs_stat E (url2path (plat E) indexName)
  then (Resolved indexName,
        setFix ("./" +:+ path_relative E (basePath E) (url2path (plat E) pathName))
               ("./" +:+ path_relative E (basePath E) (url2path (plat E) indexName))
               st1)
  else pcatch (findPackage E name parentName st1) (fun _ st => (Resolved pathName, st)).
Proof.
  intros Halias. cbv zeta. unfold newNormalize. rewrite Halias.
  unfold statAsync. destruct (fs_stat E _); reflexivity.
Qed.

(** C1, as the code has it. When the name is not redirected by the
    alias map, the candidate path does not exist and its directory-index
    path does, the interceptor answers with the index path, writes one
    entry of the fix table (relative original to relative index path,
    both prefixed with [./]) and leaves every other entry and the
    repository table alone; the package resolver is not called. *)
Theorem normalize_index_fallback fuel name parentName parentAddress st pathName :
  oldNormalize E name parentName parentAddress = Resolved pathName →
  fs_stat E (url2path (plat E) pathName) = false →
  fs_stat E (url2path (plat E) (index_name_spec pathName)) = true →
  alias E name = None →
  let r := normalize (S fuel) E name parentName parentAddress st in
  let oldPath := "./" +:+ path_relative E (basePath E) (url2path (plat E) pathName) in
  let newPath :=
    "./" +:+ path_relative E (basePath E) (url2path (plat E) (index_name_spec pathName)) in
  fst r = Resolved (index_name_spec pathName)
  ∧ fixTbl (snd r) = Obj.set oldPath newPath (fixTbl st)
  ∧ Obj.get oldPath (fixTbl (snd r)) = Some newPath
  ∧ (∀ k, k ≠ oldPath → Obj.get k (fixTbl (snd r)) = Obj.get k (fixTbl st))
  ∧ repoTbl (snd r) = repoTbl st
  ∧ resolve_calls (trace (snd r)) = resolve_calls (trace st).
Proof.
  intros Hold Hmiss Hidx Halias.
  assert (Hagree : index_name pathName = index_name_spec pathName).
  { apply index_name_spec_agree. intros Heq. rewrite Heq in Hidx. congruence. }
  cbv zeta. rewrite (normalize_missing _ _ _ _ _ _ Hold Hmiss).
  rewrite (newNormalize_unaliased _ _ _ _ _ _ Halias). cbv zeta.
  rewrite Hagree, Hidx. cbn [fst snd].
  split_and!; try reflexivity.
  - apply obj_get_set_eq.
  - intros k Hk. by apply obj_get_set_ne.
  - unfold setFix, log; cbn [trace]. rewrite !resolve_calls_app.
    change (resolve_calls [_]) with 0. lia.
Qed.

(** [findPackage] for an undefined parent. *)
Lemma findPackage_undefined name st :
  findPackage E name None st = (Rejected TypeError, st).
Proof. reflexivity. Qed.

(** X21. The package fallback as the code has it. When the name is not
    redirected by the alias map and neither the candidate path nor the
    path the index pattern makes of it exists, no rejection leaves the
    interceptor. For a defined parent the package resolver is called
    exactly once; the interceptor answers with the path [findPackage]
    makes of the resolver's answer, and with the unchanged candidate
    path when resolution fails, be it with the resolver's own error or
    with the internal-module error. For an undefined parent the
    resolver is not called and the answer is the candidate path. *)
Theorem normalize_package_fallback fuel name parent parentAddress st pathName :
  oldNormalize E name parent parentAddress = Resolved pathName →
  fs_stat E (url2path (plat E) pathName) = false →
  fs_stat E (url2path (plat E) (index_name pathName)) = false →
  alias E name = None →
  let r := normalize (S fuel) E name parent parentAddress st in
  let stats := [ EvNormalize name parent parentAddress;
                 EvStat (url2path (plat E) pathName);
                 EvStat (url2path (plat E) (index_name pathName)) ] in
  (∀ e, fst r ≠ Rejected e)
  ∧ match parent with
    | None =>
        fst r = Resolved pathName
        ∧ trace (snd r) = trace st ++ stats
        ∧ resolve_calls (trace (snd r)) = resolve_calls (trace st)
    | Some parentName =>
        let filename := url2path (plat E) parentName in
        trace (snd r) = trace st ++ stats ++ [EvResolve name filename]
        ∧ resolve_calls (trace (snd r)) = S (resolve_calls (trace st))
        ∧ match resolved (resolve E name filename) with
          | Found p =>
              if String.eqb p name then fst r = Resolved pathName
              else fst r = Resolved (path2url (plat E) (path_relative E (basePath E) p))
                   ∧ fst r = fst (findPackage E name parent st)
          | NotFound _ => fst r = Resolved pathName
          | Hung => fst r = Pending
          end
    end.
Proof.
  intros Hold Hmiss Hidx Halias.
  cbv zeta. rewrite (normalize_missing _ _ _ _ _ _ Hold Hmiss).
  rewrite (newNormalize_unaliased _ _ _ _ _ _ Halias). cbv zeta.
  rewrite Hidx. destruct parent as [parentName|].
  - rewrite !findPackage_cases. cbv zeta.
    destruct (resolved _) as [p|msg|] eqn:Hres.
    + destruct (String.eqb_spec p name) as [->|Hne];
        unfold setRepo, log; cbn [pcatch fst snd trace app];
        rewrite <- !app_assoc; (split_and!; try done);
        rewrite !resolve_calls_app; cbn; lia.
    + unfold log; cbn [pcatch fst snd trace app]. rewrite <- !app_assoc.
      split_and!; try done. rewrite !resolve_calls_app. cbn. lia.
    + unfold log; cbn [pcatch fst snd trace app]. rewrite <- !app_assoc.
      split_and!; try done. rewrite !resolve_calls_app. cbn. lia.
  - rewrite findPackage_undefined. unfold log; cbn [pcatch fst snd trace app].
    rewrite <- !app_assoc. split_and!; try done.
    rewrite !resolve_calls_app. cbn. lia.
Qed.

End Interceptor.

(** A directory import: [lib.js] is missing and [lib/index.js] exists. *)
Lemma normalize_index_fallback_witness :
  let E := Sample.env ["/proj/lib/index.js"] Sample.urlOf Sample.noPackage None in
  let r := normalize 1 E "lib" (Some "file:///proj/main.js") "" emptySession in
  fst r = Resolved "file:///proj/lib/index.js"
  ∧ fixTbl (snd r) = [("./lib.js", "./lib/index.js")]
  ∧ resolve_calls (trace (snd r)) = 0.
Proof.
  intros E r.
  destruct (normalize_index_fallback E 0 "lib" (Some "file:///proj/main.js") ""
              emptySession "file:///proj/lib.js")
    as (Hres & Hfix & _ & _ & _ & Hcalls); [reflexivity..|].
  split; [exact Hres|]. split; [exact Hfix | exact Hcalls].
Defined.

(** C1 as stated fails: the alias map is consulted before the index
    path. Here [lib] is aliased to [other]; the candidate [lib.js] does
    not exist and [lib/index.js] does, yet the interceptor answers with
    the path of [other] and records no fix. *)
Lemma normalize_alias_counterexample :
  let E := Sample.env ["/proj/lib/index.js"; "/proj/other.js"] Sample.urlOf
             Sample.noPackage (Some [("lib", "other")]) in
  let r := normalize 2 E "lib" (Some "file:///proj/main.js") "" emptySession in
  oldNormalize E "lib" (Some "file:///proj/main.js") "" = Resolved "file:///proj/lib.js"
  ∧ fs_stat E (url2path (plat E) "file:///proj/lib.js") = false
  ∧ fs_stat E (url2path (plat E) (index_name_spec "file:///proj/lib.js")) = true
  ∧ fst r = Resolved "file:///proj/other.js"
  ∧ fst r ≠ Resolved (index_name_spec "file:///proj/lib.js")
  ∧ fixTbl (snd r) = [].
Proof. cbv zeta. split_and!; try reflexivity. discriminate. Qed.

(** A package import: neither [foo.js] nor [foo/index.js] exists. *)
Lemma normalize_package_fallback_witness :
  let E := Sample.env [] Sample.urlOf
             (fun _ => {| manifests := [(Some "foo", "/proj/node_modules/foo/package.json")];
                          resolved := Found "/proj/node_modules/foo/main.js" |}) None in
  let r := normalize 1 E "foo" (Some "file:///proj/main.js") "" emptySession in
  resolve_calls (trace (snd r)) = 1
  ∧ fst r = Resolved "node_modules/foo/main.js".
Proof.
  intros E r.
  destruct (normalize_package_fallback E 0 "foo" (Some "file:///proj/main.js") ""
              emptySession "file:///proj/foo.js")
    as (_ & _ & Hcalls & Hres); [reflexivity..|].
  split; [exact Hcalls | exact (proj1 Hres)].
Defined.

(** Resolution that fails leaves the candidate path, whichever the
    failure. *)
Example normalize_package_fallback_failure :
  let E1 := Sample.env [] Sample.urlOf Sample.noPackage None in
  let E2 := Sample.env [] Sample.urlOf
              (fun name => {| manifests := []; resolved := Found name |}) None in
  fst (normalize 1 E1 "fs" (Some "file:///proj/main.js") "" emptySession)
    = Resolved "file:///proj/fs.js"
  ∧ fst (normalize 1 E2 "fs" (Some "file:///proj/main.js") "" emptySession)
    = Resolved "file:///proj/fs.js"
  ∧ fst (findPackage E2 "fs" (Some "file:///proj/main.js") emptySession)
    = Rejected InternalModule.
Proof. cbv zeta. split_and!; reflexivity. Qed.

(** C2 on the code. The pattern that makes the index path has an
    unescaped dot, and the resolver's options are built from the parent
    before the resolver is called. So the package fallback is missed on
    two kinds of import for which neither the candidate path nor its
    directory-index path exists and no alias applies. For the candidate
    [file:///proj/nodejs] the pattern takes [ejs] for the extension: the
    interceptor answers with [file:///proj/nod/index.js], which exists,
    writes a fix and never calls the resolver, which would have found
    the package. For the import that starts the bundle the parent is
    undefined: the resolver is not called either, and the answer is the
    candidate path, where the same import with a parent gets the
    package. *)
Theorem normalize_package_fallback_missed :
  let package := fun name : string =>
    {| manifests := [(Some name, "/proj/node_modules/" +:+ name +:+ "/package.json")];
       resolved := Found ("/proj/node_modules/" +:+ name +:+ "/main.js") |} in
  let E := Sample.env ["/proj/nod/index.js"]
             (fun name => Resolved ("file:///proj/" +:+ name)) package None in
  let parent := Some "file:///proj/main.js" in
  let r := normalize 1 E "nodejs" parent "" emptySession in
  let E' := Sample.env [] Sample.urlOf package None in
  let r' := normalize 1 E' "foo" None "" emptySession in
  (oldNormalize E "nodejs" parent "" = Resolved "file:///proj/nodejs"
   ∧ fs_stat E (url2path (plat E) "file:///proj/nodejs") = false
   ∧ fs_stat E (url2path (plat E) (index_name_spec "file:///proj/nodejs")) = false
   ∧ alias E "nodejs" = None
   ∧ fst (findPackage E "nodejs" parent emptySession)
     = Resolved "node_modules/nodejs/main.js"
   ∧ fst r = Resolved "file:///proj/nod/index.js"
   ∧ fixTbl (snd r) = [("./nodejs", "./nod/index.js")]
   ∧ resolve_calls (trace (snd r)) = 0)
  ∧ (oldNormalize E' "foo" None "" = Resolved "file:///proj/foo.js"
     ∧ fs_stat E' (url2path (plat E') "file:///proj/foo.js") = false
     ∧ fs_stat E' (url2path (plat E') (index_name_spec "file:///proj/foo.js")) = false
     ∧ alias E' "foo" = None
     ∧ fst (normalize 1 E' "foo" parent "" emptySession)
       = Resolved "node_modules/foo/main.js"
     ∧ fst r' = Resolved "file:///proj/foo.js"
     ∧ resolve_calls (trace (snd r')) = 0).
Proof. cbv zeta. split; split_and!; reflexivity. Qed.

(** ** Config emitter *)

Section Emitter.
Variable E : Env.

(** C10. With [includeConfigList] left out, [writeConfig] throws on the
    member access whatever the tables hold, and so does the last stage
    of [build] once [outConfigPath] is set and the shim is resolved; with
    an empty list the same call arrives at the write of the
    configuration, and the stage settles as that write does. *)
Theorem writeConfig_missing_includes options st shimPath c out :
  outConfigPath options = Some (String c out) →
  includeConfigList options = None →
  resolved (resolve E (if debug options then "cbuild/process-dev.js" else "cbuild/process.js")
              (path_resolve E (basePath E) "package.json")) = Found shimPath →
  (∀ repoTbl fixTbl shim,
     writeConfig (fs_readFile E) options repoTbl fixTbl shim = Throws TypeError)
  ∧ emitConfig E options st = Rejected TypeError
  ∧ let options' :=
      {| debug := debug options; sfx := sfx options;
         bundlePath := bundlePath options; sourcePath := sourcePath options;
         outConfigPath := outConfigPath options;
         includeConfigList := Some [];
         mapPackages := mapPackages options |} in
    ∃ w, writeConfig (fs_readFile E) options' (repoTbl st) (fixTbl st)
           (path_relative E (basePath E) shimPath) = Normal w
         ∧ write_path w = Some (String c out)
         ∧ emitConfig E options' st =
             if fs_writeFile E (String c out) (write_text w)
             then Resolved (Some w)
             else Rejected (WriteError (String c out)).
Proof.
  intros Hout Hinc Hshim. split_and!.
  - intros. unfold writeConfig. by rewrite Hinc.
  - unfold emitConfig, writeConfig. by rewrite Hout, Hshim, Hinc.
  - cbv zeta. unfold emitConfig, writeConfig.
    cbn [outConfigPath includeConfigList debug].
    rewrite Hout, Hshim. cbn [readAll]. eexists. split_and!; reflexivity.
Qed.

End Emitter.

(** A build asked for a configuration without [includeConfigList]. *)
Lemma writeConfig_missing_includes_witness :
  let E := Sample.env [] Sample.urlOf
             (fun _ => {| manifests := [];
                          resolved := Found "/proj/node_modules/cbuild/process.js" |}) None in
  emitConfig E (Sample.options None) emptySession = Rejected TypeError.
Proof.
  intros E.
  exact (proj1 (proj2 (writeConfig_missing_includes E (Sample.options None) emptySession
                 "/proj/node_modules/cbuild/process.js" "/" "proj/config-npm.js"
                 eq_refl eq_refl eq_refl))).
Defined.

(** *** Enumeration order and the emitted text *)

Lemma sort_strings_perm l1 l2 : l1 ≡ₚ l2 → sort_strings l1 = sort_strings l2.
Proof.
  intros Hperm. unfold sort_strings.
  apply (Sorted_unique String.le); [apply Sorted_merge_sort, _ ..|].
  by rewrite !merge_sort_Permutation.
Qed.

Section ObjPerm.
Context {V : Type}.
Implicit Types (o : list (string * V)) (k : string) (v : V).

Lemma obj_get_In_wf o k v : Obj.wf o → In (k, v) o → Obj.get k o = Some v.
Proof.
  unfold Obj.wf, Obj.keys. induction o as [|[k0 v0] o IH]; [done|].
  cbn [map fst]. intros [Hk0 Hnd]%NoDup_cons [Heq|Hin]; cbn [Obj.get].
  - injection Heq as -> ->. by rewrite String.eqb_refl.
  - destruct (String.eqb_spec k0 k) as [->|Hne]; [|by apply IH].
    exfalso. apply Hk0. apply list_elem_of_In. apply (in_map fst) in Hin. exact Hin.
Qed.

Lemma obj_get_perm o1 o2 k : Obj.wf o1 → o1 ≡ₚ o2 → Obj.get k o1 = Obj.get k o2.
Proof.
  intros Hwf Hperm.
  assert (Hwf2 : Obj.wf o2).
  { unfold Obj.wf, Obj.keys in *. by rewrite <- Hperm. }
  destruct (Obj.get k o1) as [v|] eqn:H1.
  - symmetry. apply obj_get_In_wf; [done|].
    apply obj_get_Some_In in H1. apply list_elem_of_In.
    rewrite <- Hperm. by apply list_elem_of_In.
  - symmetry. apply obj_get_None_keys. apply obj_get_None_keys in H1.
    unfold Obj.keys in *. by rewrite <- Hperm.
Qed.

End ObjPerm.

(** The sections that sort their keys print the same text for two tables
    with the same entries in different orders. *)
Lemma mapSection_perm t1 t2 :
  Obj.wf t1 → t1 ≡ₚ t2 → mapSection t1 = mapSection t2.
Proof.
  intros Hwf Hperm. unfold mapSection.
  assert (Hkeys : sort_strings (Obj.keys t1) = sort_strings (Obj.keys t2)).
  { apply sort_strings_perm. unfold Obj.keys. by rewrite Hperm. }
  rewrite Hkeys.
  rewrite (List.map_ext (mapRow t1) (mapRow t2)); [reflexivity|].
  intros name. unfold mapRow. by rewrite (obj_get_perm t1 t2 name Hwf Hperm).
Qed.

Lemma metaSection_perm r1 r2 shimPath :
  r1 ≡ₚ r2 → metaSection r1 shimPath = metaSection r2 shimPath.
Proof.
  intros Hperm. unfold metaSection, metaRows.
  assert (Hkeys : sort_strings (Obj.keys r1) = sort_strings (Obj.keys r2)).
  { apply sort_strings_perm. unfold Obj.keys. by rewrite Hperm. }
  by rewrite Hkeys.
Qed.

(** C3 on the code: the two sections that print the fix table take its
    keys in enumeration order. Two fix tables with the same two entries,
    inserted in opposite orders, give different texts although the
    repository table, the options and the shim are the same. *)
Theorem writeConfig_fix_order_sensitive :
  let fix1 := Obj.set "./b.js" "./b/index.js" (Obj.set "./a.js" "./a/index.js" []) in
  let fix2 := Obj.set "./a.js" "./a/index.js" (Obj.set "./b.js" "./b/index.js" []) in
  let repo :=
    [("node_modules", [("foo", {| entryPath := Some "main.js";
                                  rootPath := "node_modules/foo" |})])] in
  let emit fixTbl :=
    writeConfig (fun _ => None) (Sample.options (Some [])) repo fixTbl
      "node_modules/cbuild/process.js" in
  (∀ k, Obj.get k fix1 = Obj.get k fix2)
  ∧ fix1 ≡ₚ fix2
  ∧ emit fix1 ≠ emit fix2
  ∧ fixSection fix1 ≠ fixSection fix2.
Proof.
  cbv zeta. split_and!.
  - intros k.
    destruct (decide ("./b.js" = k)) as [<-|Hb].
    + rewrite obj_get_set_eq, obj_get_set_ne by done. by rewrite obj_get_set_eq.
    + rewrite obj_get_set_ne by done.
      destruct (decide ("./a.js" = k)) as [<-|Ha].
      * by rewrite !obj_get_set_eq.
      * by rewrite !obj_get_set_ne by done.
  - cbn. apply Permutation_swap.
  - vm_compute. discriminate.
  - vm_compute. discriminate.
Qed.

(** ** Grouping of the recorded packages *)





(** C8 on the code. The dot of the pattern that cuts the root path does
    not match a line terminator, so the cut stops at the end of the
    line. A package whose directory name holds a line feed, below the
    same [node_modules] as the package [x], is filed under a key of its
    own, the container followed by what comes after the line feed; the
    repository table ends with two keys for the one container, and the
    emitter prints two shim directives. *)
Theorem findPackage_grouping_key_line_break :
  let dir := "/proj/node_modules/a" +:+ NL +:+ "b" in
  let resolver := fun name : string =>
    if String.eqb name "x"
    then {| manifests := [(Some "x", "/proj/node_modules/x/package.json")];
            resolved := Found "/proj/node_modules/x/main.js" |}
    else {| manifests := [(Some "pkg", dir +:+ "/package.json")];
            resolved := Found (dir +:+ "/main.js") |} in
  let E := Sample.env [] Sample.urlOf resolver None in
  let parent := Some "file:///proj/src/a.js" in
  let st1 := snd (findPackage E "x" parent emptySession) in
  let r := findPackage E "pkg" parent st1 in
  let root := "node_modules/a" +:+ NL +:+ "b" in
  fst r = Resolved (root +:+ "/main.js")
  ∧ recorded "node_modules" "x" (snd r)
    = Some {| entryPath := Some "main.js"; rootPath := "node_modules/x" |}
  ∧ recorded ("node_modules" +:+ NL +:+ "b") "pkg" (snd r)
    = Some {| entryPath := Some "main.js"; rootPath := root |}
  ∧ truncate_at_container root = "node_modules"
  ∧ repo_path root ≠ truncate_at_container root
  ∧ Obj.keys (repoTbl (snd r)) = ["node_modules"; "node_modules" +:+ NL +:+ "b"]
  ∧ length (metaRows (repoTbl (snd r)) "shim.js") = 2.
Proof. cbv zeta. split_and!; try reflexivity. discriminate. Qed.

(** ** Dependency tree reporter *)

#[local] Set Warnings "-clear-no-such-hyp".

Section Report.
Implicit Types (st : TreeState) (cur s : option string) (m n : string).

Lemma report_found m cur st l : found st !! m = Some l → report m cur st = st.
Proof. intros H. unfold report. rewrite H. by destruct (Proto.inherited m). Qed.

(** A name that [Object.prototype] hands down is never stored. *)
Lemma report_inherited m cur st : Proto.inherited m = true → report m cur st = st.
Proof. intros H. unfold report. by rewrite H. Qed.

Lemma report_fresh_queue m cur st :
  Proto.inherited m = false → found st !! m = None →
  queue (report m cur st) = queue st ++ [m].
Proof. intros Hown H. unfold report. rewrite Hown, H. by destruct cur. Qed.

Lemma report_fresh_dom m cur st :
  Proto.inherited m = false →
  found st !! m = None →
  dom (found (report m cur st)) = {[m]} ∪ dom (found st).
Proof.
  intros Hown H. unfold report. rewrite Hown, H. destruct cur as [v|]; cbn [found].
  - apply set_eq. intros x. rewrite elem_of_dom, lookup_alter.
    case_decide; subst.
    + rewrite fmap_is_Some, <- elem_of_dom, dom_insert_L. done.
    + rewrite <- elem_of_dom, dom_insert_L. done.
  - by rewrite dom_insert_L.
Qed.

Lemma report_fresh_size m cur st :
  Proto.inherited m = false → found st !! m = None →
  size (found (report m cur st)) = S (size (found st)).
Proof.
  intros Hown H. rewrite <- !size_dom, (report_fresh_dom _ _ _ Hown H).
  rewrite size_union, size_singleton; [done|].
  apply disjoint_singleton_l. by apply not_elem_of_dom.
Qed.

Lemma report_fresh_lookup m cur st q :
  Proto.inherited m = false → found st !! m = None → q ≠ m → cur ≠ Some q →
  found (report m cur st) !! q = found st !! q.
Proof.
  intros Hown H Hq Hcur. unfold report. rewrite Hown, H. destruct cur as [v|]; cbn [found].
  - rewrite lookup_alter_ne by congruence. by rewrite lookup_insert_ne.
  - by rewrite lookup_insert_ne.
Qed.

Lemma report_fresh_leaf m cur st :
  Proto.inherited m = false → found st !! m = None → cur ≠ Some m →
  found (report m cur st) !! m = Some [].
Proof.
  intros Hown H Hcur. unfold report. rewrite Hown, H. destruct cur as [v|]; cbn [found].
  - rewrite lookup_alter_ne by congruence. by rewrite lookup_insert_eq.
  - by rewrite lookup_insert_eq.
Qed.

Lemma kids_report_fresh m cur st s :
  Proto.inherited m = false →
  found st !! m = None →
  (∀ v, cur = Some v → v ∈ dom (found st)) →
  kids (report m cur st) s =
  if decide (s = cur) then kids st s ++ [m] else kids st s.
Proof.
  intros Hown H Hcur.
  assert (Hm : cur ≠ Some m).
  { intros ->. specialize (Hcur m eq_refl). by apply not_elem_of_dom in H. }
  unfold report. rewrite Hown, H. destruct cur as [v|], s as [n|]; cbn [kids found output].
  - rewrite lookup_alter. specialize (Hcur v eq_refl).
    apply elem_of_dom in Hcur as [l Hl].
    destruct (decide (v = n)) as [->|Hvn].
    + rewrite decide_True by done.
      rewrite lookup_insert_ne by congruence. by rewrite Hl.
    + rewrite decide_False by congruence.
      destruct (decide (m = n)) as [->|Hmn].
      * by rewrite lookup_insert_eq, H.
      * by rewrite lookup_insert_ne.
  - by rewrite decide_False.
  - rewrite decide_False by done.
    destruct (decide (m = n)) as [->|Hmn].
    + by rewrite lookup_insert_eq, H.
    + by rewrite lookup_insert_ne.
  - by rewrite decide_True.
Qed.

Lemma upd_eq {A} (f : string → A) m a : upd f m a m = a.
Proof. unfold upd. by rewrite decide_True. Qed.

Lemma upd_ne {A} (f : string → A) m a x : x ≠ m → upd f m a x = f x.
Proof. intros. unfold upd. by rewrite decide_False. Qed.

Lemma src_depth_upd d m a s :
  s ≠ Some m → src_depth (upd d m a) s = src_depth d s.
Proof. destruct s as [n|]; [|done]. intros H. cbn. apply upd_ne. congruence. Qed.

Lemma shape_report_fresh d par cur st m :
  shape_inv d par cur st →
  Proto.inherited m = false →
  found st !! m = None →
  shape_inv (upd d m (S (src_depth d cur))) (upd par m cur) cur (report m cur st).
Proof.
  intros [Hcur Hnd Hleaf Hknd Hkp Hpk Hbound] Hown Hm.
  assert (Hmdom : m ∉ dom (found st)) by by apply not_elem_of_dom.
  assert (Hcurdom : ∀ v, cur = Some v → v ∈ dom (found st)) by (intros v Hv; by apply Hcur).
  assert (Hcm : cur ≠ Some m) by (intros ->; by apply Hmdom, Hcurdom).
  assert (Hmq : m ∉ queue st).
  { intros Hq. apply Hleaf in Hq. congruence. }
  assert (Hmk : ∀ s, m ∉ kids st s).
  { intros s Hk. by apply Hkp in Hk as [? _]. }
  split.
  - intros v ->. rewrite (report_fresh_dom _ _ _ Hown Hm), (report_fresh_queue _ _ _ Hown Hm).
    destruct (Hcur v eq_refl) as [Hv Hvq]. split; [set_solver|].
    rewrite not_elem_of_app, list_elem_of_singleton. split; [done | congruence].
  - rewrite (report_fresh_queue _ _ _ Hown Hm). apply NoDup_app. split_and!; [done| |apply NoDup_singleton].
    intros x Hx ->%list_elem_of_singleton. done.
  - intros q. rewrite (report_fresh_queue _ _ _ Hown Hm), elem_of_app, list_elem_of_singleton.
    intros [Hq| ->].
    + rewrite report_fresh_lookup; [by apply Hleaf | done | done | congruence |].
      intros ->. by apply (Hcur q).
    + by apply report_fresh_leaf.
  - intros s. rewrite (kids_report_fresh _ _ _ _ Hown Hm Hcurdom).
    case_decide; [|done]. apply NoDup_app. split_and!; [done| |apply NoDup_singleton].
    intros x Hx ->%list_elem_of_singleton. by apply (Hmk s).
  - intros s n. rewrite (kids_report_fresh _ _ _ _ Hown Hm Hcurdom), (report_fresh_dom _ _ _ Hown Hm).
    case_decide as Hs.
    + subst s. rewrite elem_of_app, list_elem_of_singleton. intros [Hn| ->].
      * destruct (Hkp _ _ Hn) as [Hnd' Hpar]. split; [set_solver|].
        rewrite upd_ne; [done|]. intros ->. done.
      * split; [set_solver | apply upd_eq].
    + intros Hn. destruct (Hkp _ _ Hn) as [Hnd' Hpar]. split; [set_solver|].
      rewrite upd_ne; [done|]. intros ->. done.
  - intros n. rewrite (report_fresh_dom _ _ _ Hown Hm), elem_of_union, elem_of_singleton.
    intros [->|Hn].
    + rewrite !upd_eq, (kids_report_fresh _ _ _ _ Hown Hm Hcurdom), decide_True by done.
      split_and!.
      * set_solver.
      * by rewrite src_depth_upd.
      * intros p ->. apply elem_of_union_r. by apply Hcurdom.
    + assert (n ≠ m) by (intros ->; done).
      destruct (Hpk n Hn) as (Hk & Hd & Hp).
      rewrite !upd_ne by done. split_and!.
      * rewrite (kids_report_fresh _ _ _ _ Hown Hm Hcurdom). case_decide; [|done].
        set_solver.
      * rewrite Hd, src_depth_upd; [done|]. intros Hpm. by apply Hmdom, Hp.
      * intros p Hpar. apply elem_of_union_r. by apply Hp.
  - intros n. rewrite (report_fresh_dom _ _ _ Hown Hm), (report_fresh_size _ _ _ Hown Hm).
    rewrite elem_of_union, elem_of_singleton. intros [->|Hn].
    + rewrite upd_eq. destruct cur as [v|]; cbn; [|lia].
      specialize (Hbound v (Hcurdom v eq_refl)). lia.
    + rewrite upd_ne by (intros ->; done). specialize (Hbound n Hn). lia.
Qed.

End Report.

Section Traversal.
Variable result : BuildResult.
Implicit Types (st : TreeState) (cur s : option string) (m n : string)
  (d : string → nat) (par : string → option string).

Lemma bfs_report_found d cur rest st m l :
  bfs_inv result d cur (m :: rest) st →
  found st !! m = Some l →
  bfs_inv result d cur rest st.
Proof.
  intros [Hitem Hrest Hhops Hlevel Hq Hroot Hclosed Hcc Hkids] Hm.
  split; try done.
  - intros x Hx. apply Hrest. by right.
  - intros x Hx Hox. destruct (Hcc x Hx Hox) as [[Heq|Hin]%elem_of_cons|Hr].
    + right. subst x. assert (m ∈ dom (found st)) by (apply elem_of_dom; eauto).
      split; [done | by apply Hlevel].
    + by left.
    + by right.
Qed.

Lemma bfs_report_inherited d cur rest st m :
  bfs_inv result d cur (m :: rest) st →
  Proto.inherited m = true →
  bfs_inv result d cur rest st.
Proof.
  intros [Hitem Hrest Hhops Hlevel Hq Hroot Hclosed Hcc Hkids] Hm.
  split; try done.
  - intros x Hx. apply Hrest. by right.
  - intros x Hx Hox. destruct (Hcc x Hx Hox) as [[Heq|Hin]%elem_of_cons|Hr].
    + subst x. congruence.
    + by left.
    + by right.
Qed.

Lemma bfs_report_fresh d par cur rest st m :
  shape_inv d par cur st →
  bfs_inv result d cur (m :: rest) st →
  Proto.inherited m = false →
  found st !! m = None →
  bfs_inv result (upd d m (S (src_depth d cur))) cur rest (report m cur st).
Proof.
  intros Hshape [Hitem Hrest Hhops Hlevel Hq Hroot Hclosed Hcc Hkids] Hown Hm.
  assert (Hmdom : m ∉ dom (found st)) by by apply not_elem_of_dom.
  assert (Hcm : cur ≠ Some m).
  { intros ->. by apply Hmdom, (si_cur _ _ _ _ Hshape m). }
  assert (Hmq : m ∉ queue st).
  { intros Hin. apply (si_queue_leaf _ _ _ _ Hshape) in Hin. congruence. }
  assert (Hold : ∀ n, n ∈ dom (found st) → upd d m (S (src_depth d cur)) n = d n).
  { intros n Hn. apply upd_ne. intros ->. done. }
  assert (Hc : src_depth (upd d m (S (src_depth d cur))) cur = src_depth d cur)
    by by apply src_depth_upd.
  split.
  - done.
  - intros x Hx. apply Hrest. by right.
  - intros n. rewrite (report_fresh_dom _ _ _ Hown Hm), elem_of_union, elem_of_singleton.
    intros [->|Hn].
    + rewrite upd_eq. assert (Hin : m ∈ src_imports result cur) by (apply Hrest; by left).
      destruct cur as [v|]; cbn in *.
      * apply (hops_import _ _ v); [|done..]. apply Hhops.
        by apply (si_cur _ _ _ _ Hshape v).
      * by apply hops_entry.
    + rewrite Hold by done. by apply Hhops.
  - intros n. rewrite (report_fresh_dom _ _ _ Hown Hm), elem_of_union, elem_of_singleton, Hc.
    intros [->|Hn]; [by rewrite upd_eq|]. rewrite Hold by done. by apply Hlevel.
  - destruct Hq as (A & B & HAB & HA & HB).
    exists A, (B ++ [m]). rewrite (report_fresh_queue _ _ _ Hown Hm), HAB, Hc.
    split_and!; [by rewrite app_assoc | |].
    + apply Forall_forall. intros a Ha. rewrite upd_ne.
      * by apply (proj1 (Forall_forall _ _) HA).
      * intros ->. apply Hmq. rewrite HAB. set_solver.
    + apply Forall_app. split; [|by rewrite Forall_singleton, upd_eq].
      apply Forall_forall. intros b Hb. rewrite upd_ne.
      * by apply (proj1 (Forall_forall _ _) HB).
      * intros ->. apply Hmq. rewrite HAB. set_solver.
  - intros Hcur e He Hoe. destruct (Hroot Hcur e He Hoe) as [Hf Hd].
    rewrite (report_fresh_dom _ _ _ Hown Hm), Hold by done. split; [set_solver | done].
  - intros p. rewrite (report_fresh_dom _ _ _ Hown Hm), (report_fresh_queue _ _ _ Hown Hm).
    rewrite elem_of_union, elem_of_singleton, not_elem_of_app, list_elem_of_singleton.
    intros [->|Hp] [Hpq Hpm] Hcur; [done|].
    destruct (Hclosed p Hp Hpq Hcur) as [Hit Himp]. split; [done|].
    intros x Hx Hox. destruct (Himp x Hx Hox) as [Hxf Hxd].
    rewrite !Hold by done. split; [set_solver | done].
  - intros x Hx Hox. rewrite (report_fresh_dom _ _ _ Hown Hm), Hc.
    destruct (Hcc x Hx Hox) as [[Heq|Hin]%elem_of_cons|[Hxf Hxd]].
    + right. subst x. rewrite upd_eq. split; [set_solver | done].
    + by left.
    + right. rewrite Hold by done. split; [set_solver | done].
  - intros s n. rewrite (kids_report_fresh _ _ _ _ Hown Hm).
    + case_decide as Hs; [|by apply Hkids].
      subst s. rewrite elem_of_app, list_elem_of_singleton.
      intros [Hn| ->]; [by apply Hkids | apply Hrest; by left].
    + intros v Hv. by apply (si_cur _ _ _ _ Hshape v).
Qed.

Lemma size_difference_fresh (U D : gset string) m :
  m ∉ D → m ∈ U → size (U ∖ D) = S (size (U ∖ ({[m]} ∪ D))).
Proof.
  intros HD HU.
  assert (Heq : U ∖ D = {[m]} ∪ U ∖ ({[m]} ∪ D)).
  { apply set_eq. intros x.
    rewrite elem_of_union, !elem_of_difference, elem_of_union, elem_of_singleton.
    destruct (decide (x = m)) as [->|Hx]; tauto. }
  rewrite Heq, size_union, size_singleton; [done|].
  apply disjoint_singleton_l. rewrite elem_of_difference, elem_of_union, elem_of_singleton.
  tauto.
Qed.

Lemma potential_report m cur st :
  m ∈ candidates result → potential result (report m cur st) = potential result st.
Proof.
  intros Hcand. destruct (Proto.inherited m) eqn:Hown.
  { by rewrite report_inherited. }
  destruct (found st !! m) as [l|] eqn:Hm.
  - by rewrite (report_found _ _ _ _ Hm).
  - unfold potential.
    rewrite (report_fresh_dom _ _ _ Hown Hm), (report_fresh_queue _ _ _ Hown Hm), length_app.
    cbn [length].
    rewrite (size_difference_fresh _ (dom (found st)) m).
    + lia.
    + by apply not_elem_of_dom.
    + by apply elem_of_list_to_set.
Qed.

(** *** The order of discovery *)

Lemma filter_upd_fresh d m a k (l : list string) :
  m ∉ l → filter (λ x, upd d m a x = k) l = filter (λ x, d x = k) l.
Proof.
  induction l as [|x l IH]; [done|].
  intros [Hx Hl]%not_elem_of_cons. rewrite !filter_cons, IH by done.
  by rewrite upd_ne by done.
Qed.

Lemma flat_map_ext_elem {A B} (f g : A → list B) l :
  (∀ x, x ∈ l → f x = g x) → flat_map f l = flat_map g l.
Proof.
  induction l as [|a l IH]; intros H; cbn; [done|].
  rewrite (H a) by by left. f_equal. apply IH. intros x Hx. apply H. by right.
Qed.

Lemma flat_map_leaves {A B} (f : A → list B) l :
  (∀ x, x ∈ l → f x = []) → flat_map f l = [].
Proof.
  induction l as [|a l IH]; intros H; cbn; [done|].
  rewrite (H a) by by left. apply IH. intros x Hx. apply H. by right.
Qed.

Lemma shape_depth_pos d par cur st n :
  shape_inv d par cur st → n ∈ dom (found st) → 1 ≤ d n.
Proof. intros Hs Hn. destruct (si_par_kids _ _ _ _ Hs n Hn) as (_ & -> & _). lia. Qed.

Lemma kids_leaf st q : found st !! q = Some [] → kids st (Some q) = [].
Proof. intros H. cbn. by rewrite H. Qed.

Lemma kids_missing st m : found st !! m = None → kids st (Some m) = [].
Proof. intros H. cbn. by rewrite H. Qed.

(** Reporting a new name puts it last on the level below [cur] and
    leaves the other levels as they are. *)
Lemma level_report_fresh d par cur done st m :
  shape_inv d par cur st →
  order_inv result d par cur done st →
  Proto.inherited m = false →
  found st !! m = None →
  ∀ k, level (report m cur st) k =
       level st k ++ (if decide (k = src_depth d cur) then [m] else []).
Proof.
  intros Hshape Horder Hown Hm.
  assert (Hcurdom : ∀ v, cur = Some v → v ∈ dom (found st))
    by (intros v Hv; by apply (si_cur _ _ _ _ Hshape v)).
  assert (Hcm : cur ≠ Some m).
  { intros ->. apply not_elem_of_dom in Hm. by apply Hm, Hcurdom. }
  assert (Hkids : ∀ s, kids (report m cur st) s =
                       if decide (s = cur) then kids st s ++ [m] else kids st s)
    by (intros s; by apply kids_report_fresh).
  induction k as [|k IH].
  - cbn [level]. change (output (report m cur st)) with (kids (report m cur st) None).
    rewrite Hkids. destruct cur as [v|]; cbn [src_depth kids].
    + rewrite decide_False by done.
      pose proof (shape_depth_pos _ _ _ _ v Hshape (Hcurdom v eq_refl)).
      rewrite decide_False by lia. by rewrite app_nil_r.
    + by rewrite !decide_True.
  - cbn [level]. rewrite IH, flat_map_app.
    assert (Hextra : flat_map (λ n, kids (report m cur st) (Some n))
                       (if decide (k = src_depth d cur) then [m] else []) = []).
    { case_decide; [|done]. cbn [flat_map]. rewrite Hkids, decide_False by congruence.
      by rewrite kids_missing. }
    rewrite Hextra, app_nil_r.
    destruct cur as [v|]; cbn [src_depth].
    + destruct (decide (S k = d v)) as [Hkv|Hkv].
      * (* [v] lies on level [k]: what follows it there is still in the queue *)
        destruct (oi_cur _ _ _ _ _ _ Horder) as [l Hdone].
        pose proof (oi_nodup _ _ _ _ _ _ Horder) as Hnd.
        rewrite (oi_levels _ _ _ _ _ _ Horder k), Hdone, <- !app_assoc, !filter_app.
        rewrite Hdone, <- !app_assoc in Hnd.
        apply NoDup_app in Hnd as (_ & Hl & Hnd).
        apply NoDup_app in Hnd as (_ & Hvq & _).
        rewrite filter_cons_True, filter_nil by done.
        rewrite !flat_map_app. cbn [flat_map]. rewrite !app_nil_r.
        rewrite (Hkids (Some v)), decide_True by done.
        rewrite (flat_map_ext_elem (λ n, kids (report m (Some v) st) (Some n))
                   (λ n, kids st (Some n)) (filter _ l)).
        2:{ intros x [_ Hx]%list_elem_of_filter. rewrite Hkids, decide_False; [done|].
            intros [= ->]. apply (Hl v); [done | by left]. }
        rewrite (flat_map_leaves _ (filter _ (queue st))).
        2:{ intros x [_ Hx]%list_elem_of_filter. rewrite Hkids, decide_False.
            - apply kids_leaf. by apply (si_queue_leaf _ _ _ _ Hshape).
            - intros [= ->]. apply (Hvq v); [by left | done]. }
        rewrite (flat_map_leaves _ (filter _ (queue st))).
        2:{ intros x [_ Hx]%list_elem_of_filter.
            apply kids_leaf. by apply (si_queue_leaf _ _ _ _ Hshape). }
        by rewrite !app_nil_r, app_assoc.
      * rewrite app_nil_r.
        apply flat_map_ext_elem. intros x Hx.
        rewrite Hkids, decide_False; [done|]. intros [= ->].
        rewrite (oi_levels _ _ _ _ _ _ Horder k) in Hx.
        apply list_elem_of_filter in Hx as [Hx _]. congruence.
    + rewrite decide_False by done. rewrite app_nil_r.
      apply flat_map_ext_elem. intros x _. by rewrite Hkids, decide_False.
Qed.

Lemma order_report_fresh d par cur done rest st m :
  shape_inv d par cur st →
  bfs_inv result d cur (m :: rest) st →
  order_inv result d par cur done st →
  Proto.inherited m = false →
  found st !! m = None →
  order_inv result (upd d m (S (src_depth d cur))) (upd par m cur) cur done
    (report m cur st).
Proof.
  intros Hshape Hbfs Horder Hown Hm.
  pose proof Horder as [Hcur Hnd Hdom Hlev Hleaves Hfirst].
  assert (Hmdom : m ∉ dom (found st)) by by apply not_elem_of_dom.
  assert (Hmord : m ∉ done ++ queue st) by by rewrite Hdom.
  assert (Hcurdom : ∀ v, cur = Some v → v ∈ dom (found st))
    by (intros v Hv; by apply (si_cur _ _ _ _ Hshape v)).
  assert (Hcm : cur ≠ Some m) by (intros ->; by apply Hmdom, Hcurdom).
  assert (Hc : src_depth (upd d m (S (src_depth d cur))) cur = src_depth d cur)
    by by apply src_depth_upd.
  split.
  - done.
  - rewrite (report_fresh_queue _ _ _ Hown Hm), app_assoc. apply NoDup_app.
    split_and!; [done | | apply NoDup_singleton].
    intros x Hx ->%list_elem_of_singleton. done.
  - intros x. rewrite (report_fresh_queue _ _ _ Hown Hm), (report_fresh_dom _ _ _ Hown Hm), app_assoc.
    rewrite elem_of_app, list_elem_of_singleton, Hdom. set_solver.
  - intros k. rewrite (level_report_fresh _ _ _ _ _ _ Hshape Horder Hown Hm).
    rewrite (report_fresh_queue _ _ _ Hown Hm), app_assoc, filter_app.
    rewrite filter_upd_fresh by done. rewrite <- Hlev. f_equal.
    rewrite filter_cons, filter_nil, upd_eq.
    destruct (decide (k = src_depth d cur)) as [->|Hk].
    + by rewrite decide_True.
    + rewrite decide_False; [done | congruence].
  - intros n. rewrite (report_fresh_dom _ _ _ Hown Hm), elem_of_union, elem_of_singleton, Hc.
    rewrite (kids_report_fresh _ _ _ _ Hown Hm Hcurdom).
    intros [->|Hn] Hd.
    + rewrite decide_False by congruence. by apply kids_missing.
    + rewrite upd_ne in Hd by (intros ->; done).
      rewrite decide_False; [by apply Hleaves|].
      intros <-. cbn in Hd. lia.
  - intros n p. rewrite (report_fresh_dom _ _ _ Hown Hm), elem_of_union, elem_of_singleton.
    intros [->|Hn].
    + rewrite upd_eq. intros ->. destruct Hcur as [l ->].
      exists l, []. split; [done|]. intros q Hq Himp.
      rewrite <- app_assoc in Hnd. apply NoDup_app in Hnd as (_ & Hl & _).
      assert (Hqf : q ∈ dom (found st)).
      { apply Hdom. rewrite <- app_assoc. apply elem_of_app. by left. }
      destruct (bi_closed _ _ _ _ _ Hbfs q Hqf) as [_ Hclosed].
      * intros Hqq. apply (Hl q Hq). by right.
      * intros [= ->]. apply (Hl q Hq). by left.
      * by apply Hmdom, Hclosed.
    + rewrite upd_ne by (intros ->; done). by apply Hfirst.
Qed.

Lemma level_pop st q k : level (pop st q) k = level st k.
Proof. induction k as [|k IH]; cbn [level]; [done | by rewrite IH]. Qed.

Lemma order_pop d par cur done st v q :
  shape_inv d par cur st →
  bfs_inv result d cur [] st →
  order_inv result d par cur done st →
  queue st = v :: q →
  order_inv result d par (Some v) (done ++ [v]) (pop st q).
Proof.
  intros Hshape Hbfs [Hcur Hnd Hdom Hlev Hleaves Hfirst] Hq.
  assert (Hord : (done ++ [v]) ++ q = done ++ queue st)
    by by rewrite Hq, <- app_assoc.
  split; cbn [pop queue found].
  - by exists done.
  - by rewrite Hord.
  - intros x. by rewrite Hord.
  - intros k. by rewrite level_pop, Hord.
  - intros n Hn Hd. apply Hleaves; [done|]. cbn in Hd.
    pose proof (bi_level _ _ _ _ _ Hbfs n Hn) as Hle.
    destruct (bi_queue_levels _ _ _ _ _ Hbfs) as (A & B & HAB & HA & HB).
    rewrite Hq in HAB. destruct A as [|a A].
    + cbn in HAB. subst B. apply Forall_cons in HB as [Hdv _]. lia.
    + cbn in HAB. injection HAB as <- ->. apply Forall_cons in HA as [Hdv _]. lia.
  - intros n p Hn Hp. destruct (Hfirst n p Hn Hp) as (l1 & l2 & -> & Hl1).
    exists l1, (l2 ++ [v]). split; [|done]. by rewrite <- app_assoc.
Qed.

Lemma order_empty : order_inv result (λ _, 0) (λ _, None) None [] emptyTree.
Proof.
  split; cbn; try done.
  - apply NoDup_nil_2.
  - intros x. rewrite dom_empty_L. split; [by intros ?%elem_of_nil | done].
  - intros k. induction k as [|k IH]; cbn; [done | by rewrite IH].
Qed.
Lemma reportAll_inv rest : ∀ d par cur done st,
  shape_inv d par cur st →
  bfs_inv result d cur rest st →
  order_inv result d par cur done st →
  (∀ m, m ∈ rest → m ∈ candidates result) →
  ∃ d' par',
    shape_inv d' par' cur (reportAll rest cur st)
    ∧ bfs_inv result d' cur [] (reportAll rest cur st)
    ∧ order_inv result d' par' cur done (reportAll rest cur st)
    ∧ potential result (reportAll rest cur st) = potential result st.
Proof.
  induction rest as [|m rest IH]; intros d par cur done st Hshape Hbfs Horder Hcand.
  - by exists d, par.
  - cbn [reportAll fold_left].
    assert (Hm : m ∈ candidates result) by (apply Hcand; by left).
    assert (Hrest : ∀ x, x ∈ rest → x ∈ candidates result)
      by (intros x Hx; apply Hcand; by right).
    destruct (Proto.inherited m) eqn:Hown.
    { rewrite (report_inherited _ _ _ Hown).
      apply (IH d par); [done | by eapply bfs_report_inherited | done | done]. }
    destruct (found st !! m) as [l|] eqn:Hfound.
    + rewrite (report_found _ _ _ _ Hfound).
      apply (IH d par); [done | by eapply bfs_report_found | done | done].
    + destruct (IH _ _ cur done (report m cur st)
                  (shape_report_fresh _ _ _ _ _ Hshape Hown Hfound)
                  (bfs_report_fresh _ _ _ _ _ _ Hshape Hbfs Hown Hfound)
                  (order_report_fresh _ _ _ _ _ _ _ Hshape Hbfs Horder Hown Hfound) Hrest)
        as (d' & par' & Hs' & Hb' & Ho' & Hpot).
      exists d', par'. split_and!; [done..|].
      fold (reportAll rest cur (report m cur st)).
      by rewrite Hpot, potential_report.
Qed.

Lemma shape_pop d par cur st v q :
  shape_inv d par cur st → queue st = v :: q →
  shape_inv d par (Some v) (pop st q).
Proof.
  intros [Hcur Hnd Hleaf Hknd Hkp Hpk Hbound] Hq.
  rewrite Hq in Hnd. apply NoDup_cons in Hnd as [Hvq Hnd].
  split; try done.
  - intros ? [= <-]. cbn. split; [|done].
    apply elem_of_dom. rewrite (Hleaf v); [done|]. rewrite Hq. by left.
  - intros x Hx. apply Hleaf. rewrite Hq. by right.
Qed.

Lemma bfs_pop d par cur st v q item :
  shape_inv d par cur st →
  bfs_inv result d cur [] st →
  queue st = v :: q →
  Obj.get v (tree result) = Some item →
  bfs_inv result d (Some v) (targets item) (pop st q).
Proof.
  intros Hshape [Hitem Hrest Hhops Hlevel Hql Hroot Hclosed Hcc Hkids] Hq Hv.
  assert (Himp : imports result v = targets item) by (unfold imports; by rewrite Hv).
  destruct Hql as (A & B & HAB & HA & HB).
  assert (Hdv : src_depth d cur ≤ d v ∧
                ∃ A' B', q = A' ++ B' ∧ Forall (λ a, d a = d v) A'
                         ∧ Forall (λ b, d b = S (d v)) B').
  { rewrite Hq in HAB. destruct A as [|a A].
    - cbn in HAB. subst B. apply Forall_cons in HB as [Hdv HB].
      split; [lia|]. exists q, []. rewrite app_nil_r, Hdv. by split_and!.
    - cbn in HAB. injection HAB as <- ->. apply Forall_cons in HA as [Hdv HA].
      split; [lia|]. exists A, B. rewrite Hdv. by split_and!. }
  destruct Hdv as [Hdv HAB'].
  split; cbn [src_depth src_imports pop found queue].
  - intros ? [= <-]. by rewrite Hv.
  - intros m Hm. by rewrite Himp.
  - done.
  - intros n Hn. specialize (Hlevel n Hn). lia.
  - done.
  - intros _ e He Hoe. destruct cur as [u|].
    + by apply Hroot.
    + destruct (Hcc e He Hoe) as [Hin|[? ?]]; [by apply elem_of_nil in Hin | done].
  - intros p Hp Hpq Hpv.
    assert (Hpq' : p ∉ queue st).
    { rewrite Hq, not_elem_of_cons. split; [congruence | done]. }
    destruct (decide (cur = Some p)) as [->|Hcp].
    + split; [by apply Hitem|]. intros m Hm Hom.
      destruct (Hcc m Hm Hom) as [Hin|[? ?]]; [by apply elem_of_nil in Hin | done].
    + by apply Hclosed.
  - intros m Hm _. left. by rewrite <- Himp.
  - done.
Qed.

Lemma potential_pop st v q :
  queue st = v :: q → potential result st = S (potential result (pop st q)).
Proof. intros Hq. unfold potential, pop; cbn [found queue]. rewrite Hq. cbn. lia. Qed.

Lemma targets_candidates v item :
  Obj.get v (tree result) = Some item →
  ∀ m, m ∈ targets item → m ∈ candidates result.
Proof.
  intros Hv m Hm. unfold candidates. apply elem_of_app. right.
  apply list_elem_of_In, in_flat_map. exists (v, item).
  split; [by apply obj_get_Some_In | by apply list_elem_of_In].
Qed.

Lemma reportAll_targets item cur st :
  fold_left (λ st dep, report (depTarget item dep) cur st) (deps item) st
  = reportAll (targets item) cur st.
Proof.
  unfold reportAll, targets. revert st.
  induction (deps item) as [|dep l IH]; intros st; [done|]. cbn. apply IH.
Qed.

Lemma drain_step fuel st v q item :
  queue st = v :: q → Obj.get v (tree result) = Some item →
  drain (S fuel) result st = drain fuel result (reportAll (targets item) (Some v) (pop st q)).
Proof.
  intros Hq Hv. cbn [drain]. rewrite Hq, Hv. by rewrite reportAll_targets.
Qed.

(** The loop ends, with the invariant and an empty queue or on a name
    that the module table lacks although the entry points lead to it. *)
Lemma drain_spec fuel : ∀ d par cur done st,
  shape_inv d par cur st →
  bfs_inv result d cur [] st →
  order_inv result d par cur done st →
  potential result st < fuel →
  match drain fuel result st with
  | Normal st' =>
      queue st' = []
      ∧ ∃ d' par' cur' done',
          shape_inv d' par' cur' st' ∧ bfs_inv result d' cur' [] st'
          ∧ order_inv result d' par' cur' done' st'
  | Throws e =>
      e = TypeError ∧ ∃ n, reachable result n ∧ Obj.get n (tree result) = None
  | NoFuel => False
  end.
Proof.
  induction fuel as [|fuel IH]; intros d par cur done st Hshape Hbfs Horder Hpot; [lia|].
  destruct (queue st) as [|v q] eqn:Hq.
  - cbn [drain]. rewrite Hq. split; [done|]. by exists d, par, cur, done.
  - destruct (Obj.get v (tree result)) as [item|] eqn:Hv.
    + rewrite (drain_step _ _ _ _ _ Hq Hv).
      destruct (reportAll_inv (targets item) d par (Some v) (done ++ [v]) (pop st q))
        as (d' & par' & Hs' & Hb' & Ho' & Hpot').
      * by eapply shape_pop.
      * by eapply bfs_pop.
      * by eapply order_pop.
      * by apply (targets_candidates v).
      * apply (IH d' par' (Some v) (done ++ [v])); [done..|].
        rewrite Hpot'. rewrite (potential_pop _ _ _ Hq) in Hpot. lia.
    + cbn [drain]. rewrite Hq, Hv. split; [done|]. exists v. split; [|done].
      exists (d v). apply (bi_hops _ _ _ _ _ Hbfs).
      apply elem_of_dom. rewrite (si_queue_leaf _ _ _ _ Hshape v); [done|].
      rewrite Hq. by left.
Qed.

(** The state before the first [report]. *)
Lemma shape_empty : shape_inv (λ _, 0) (λ _, None) None emptyTree.
Proof.
  split; cbn; try done.
  - apply NoDup_nil_2.
  - intros q Hq. by apply elem_of_nil in Hq.
  - intros [n|]; cbn; [rewrite lookup_empty|]; apply NoDup_nil_2.
  - intros [n|] x; cbn; [rewrite lookup_empty|]; intros Hx; by apply elem_of_nil in Hx.
Qed.

Lemma bfs_empty :
  bfs_inv result (λ _, 0) None (effectiveEntryPoints result) emptyTree.
Proof.
  split; cbn; try done.
  - by exists [], [].
  - intros m Hm _. by left.
  - intros [n|] x; cbn; [rewrite lookup_empty|]; intros Hx; by apply elem_of_nil in Hx.
Qed.

Lemma potential_empty : potential result emptyTree ≤ length (candidates result).
Proof.
  unfold potential; cbn. rewrite dom_empty_L, difference_empty_L, Nat.add_0_r.
  induction (candidates result) as [|x l IH]; cbn; [by rewrite size_empty|].
  rewrite size_union_alt, size_singleton. apply le_n_S.
  etrans; [apply subseteq_size | exact IH]. set_solver.
Qed.

Lemma traversal_spec :
  match traversal result with
  | Normal st' =>
      queue st' = []
      ∧ ∃ d' par' cur' done',
          shape_inv d' par' cur' st' ∧ bfs_inv result d' cur' [] st'
          ∧ order_inv result d' par' cur' done' st'
  | Throws e =>
      e = TypeError ∧ ∃ n, reachable result n ∧ Obj.get n (tree result) = None
  | NoFuel => False
  end.
Proof.
  destruct (reportAll_inv (effectiveEntryPoints result) _ _ None [] emptyTree
              shape_empty bfs_empty order_empty) as (d & par & Hs & Hb & Ho & Hpot).
  { intros m Hm. unfold candidates. apply elem_of_app. by left. }
  unfold traversal. apply (drain_spec _ d par None []); [done..|].
  rewrite Hpot. pose proof potential_empty. lia.
Qed.

End Traversal.

(** *** The state the traversal ends in *)

Section Final.
Variable result : BuildResult.
Variables (d : string → nat) (par : string → option string) (cur : option string).
Variable st : TreeState.
Hypothesis Hshape : shape_inv d par cur st.
Hypothesis Hbfs : bfs_inv result d cur [] st.
Hypothesis Hqueue : queue st = [].

Lemma final_entries e :
  e ∈ effectiveEntryPoints result → Proto.inherited e = false →
  e ∈ dom (found st) ∧ d e ≤ 1.
Proof.
  intros He Hoe. destruct cur as [u|] eqn:Hcur.
  - by apply (bi_closed_root _ _ _ _ _ Hbfs).
  - destruct (bi_closed_cur _ _ _ _ _ Hbfs e He Hoe) as [Hin|H]; [|done].
    by apply elem_of_nil in Hin.
Qed.

Lemma final_closed p :
  p ∈ dom (found st) →
  is_Some (Obj.get p (tree result))
  ∧ ∀ m, m ∈ imports result p → Proto.inherited m = false →
         m ∈ dom (found st) ∧ d m ≤ S (d p).
Proof.
  intros Hp. destruct (decide (cur = Some p)) as [Hcur|Hcur].
  - split; [by apply (bi_cur_item _ _ _ _ _ Hbfs)|]. intros m Hm Hom.
    destruct (bi_closed_cur _ _ _ _ _ Hbfs m) as [Hin|H].
    + by rewrite Hcur.
    + done.
    + by apply elem_of_nil in Hin.
    + by rewrite Hcur in H.
  - apply (bi_closed _ _ _ _ _ Hbfs); [done | | done].
    rewrite Hqueue. apply not_elem_of_nil.
Qed.

(** Whatever the entry points lead to has been found, no deeper than
    the hops it takes to get there. *)
Lemma final_complete k n : hops result k n → n ∈ dom (found st) ∧ d n ≤ k.
Proof.
  induction 1 as [e He Hoe|k n m Hn [IHf IHd] Hm Hom].
  - by apply final_entries.
  - destruct (final_closed n IHf) as [_ Hc]. destruct (Hc m Hm Hom) as [Hf Hd].
    split; [done | lia].
Qed.

Lemma final_min_hops n : n ∈ dom (found st) → min_hops result n (d n).
Proof.
  intros Hn. split; [by apply (bi_hops _ _ _ _ _ Hbfs)|].
  intros k Hk. by apply final_complete.
Qed.

Lemma final_depth_pos n : n ∈ dom (found st) → 1 ≤ d n.
Proof. intros Hn. destruct (si_par_kids _ _ _ _ Hshape n Hn) as (_ & -> & _). lia. Qed.

Lemma elem_of_flat_map {A B} (f : A → list B) l z :
  z ∈ flat_map f l ↔ ∃ x, x ∈ l ∧ z ∈ f x.
Proof.
  rewrite list_elem_of_In, in_flat_map. by setoid_rewrite list_elem_of_In.
Qed.

Lemma NoDup_flat_map {A B} (f : A → list B) l :
  NoDup l → (∀ x, x ∈ l → NoDup (f x)) →
  (∀ x y z, x ∈ l → y ∈ l → z ∈ f x → z ∈ f y → x = y) →
  NoDup (flat_map f l).
Proof.
  induction l as [|a l IH]; intros Hnd Hf Hdisj; cbn; [apply NoDup_nil_2|].
  apply NoDup_cons in Hnd as [Ha Hnd]. apply NoDup_app. split_and!.
  - apply Hf. by left.
  - intros z Hz Hz'. apply elem_of_flat_map in Hz' as (y & Hy & Hzy).
    assert (a = y) as -> by (apply (Hdisj a y z); [by left | by right | done..]).
    done.
  - apply IH; [done | |].
    + intros x Hx. apply Hf. by right.
    + intros x y z Hx Hy. apply Hdisj; by right.
Qed.

(** Level [k] of the store holds, once each, the names found at depth
    [S k]. *)
Lemma level_spec k :
  NoDup (level st k) ∧ ∀ n, n ∈ level st k ↔ n ∈ dom (found st) ∧ d n = S k.
Proof.
  induction k as [|k [IHnd IHin]]; cbn [level].
  - split; [apply (si_kids_nodup _ _ _ _ Hshape None)|].
    intros n. split.
    + intros Hn. destruct (si_kids_par _ _ _ _ Hshape None n Hn) as [Hf Hp].
      split; [done|]. destruct (si_par_kids _ _ _ _ Hshape n Hf) as (_ & -> & _).
      by rewrite Hp.
    + intros [Hf Hd]. destruct (si_par_kids _ _ _ _ Hshape n Hf) as (Hk & Hd' & Hp).
      destruct (par n) as [p|]; [|done].
      pose proof (final_depth_pos p (Hp p eq_refl)). cbn in Hd'. lia.
  - split.
    + apply NoDup_flat_map; [done | |].
      * intros x _. apply (si_kids_nodup _ _ _ _ Hshape (Some x)).
      * intros x y z _ _ Hx Hy.
        destruct (si_kids_par _ _ _ _ Hshape _ _ Hx) as [_ Hpx].
        destruct (si_kids_par _ _ _ _ Hshape _ _ Hy) as [_ Hpy]. congruence.
    + intros n. rewrite elem_of_flat_map. split.
      * intros (p & Hp & Hn). apply IHin in Hp as [Hpf Hpd].
        destruct (si_kids_par _ _ _ _ Hshape _ _ Hn) as [Hf Hpar].
        split; [done|]. destruct (si_par_kids _ _ _ _ Hshape n Hf) as (_ & -> & _).
        rewrite Hpar. cbn. by rewrite Hpd.
      * intros [Hf Hd]. destruct (si_par_kids _ _ _ _ Hshape n Hf) as (Hk & Hd' & Hp).
        destruct (par n) as [p|]; [|cbn in Hd'; lia].
        exists p. split; [|done]. apply IHin. split; [by apply Hp|]. cbn in Hd'. lia.
Qed.

End Final.

(** *** Reading the tree out of the store *)

Section Reify.
Variable st : TreeState.

Lemma branch_name_reify F n : branch_name (reify F (found st) n) = n.
Proof. by destruct F. Qed.

Lemma flat_map_flat_map {A B C} (f : A → list B) (g : B → list C) l :
  flat_map g (flat_map f l) = flat_map (λ x, flat_map g (f x)) l.
Proof.
  induction l as [|a l IH]; cbn; [done|]. by rewrite flat_map_app, IH.
Qed.

Lemma flat_map_singleton {A} (l : list A) : flat_map (λ x, [x]) l = l.
Proof. induction l as [|a l IH]; cbn; [done | by rewrite IH]. Qed.

Lemma flat_map_nil {A B} (f : A → list B) l :
  (∀ x, x ∈ l → f x = []) → flat_map f l = [].
Proof.
  induction l as [|a l IH]; cbn; [done|]. intros H.
  rewrite (H a) by by left. apply IH. intros x Hx. apply H. by right.
Qed.

Lemma labels_reify k : ∀ F n,
  k ≤ F → labels_at k (reify F (found st) n) = desc st k n.
Proof.
  induction k as [|k IH]; intros F n Hk.
  - cbn. by rewrite branch_name_reify.
  - destruct F as [|F]; [lia|]. cbn [labels_at reify branch_children desc kids].
    rewrite flat_map_concat_map, map_map, <- flat_map_concat_map.
    apply flat_map_ext. intros x. apply IH. lia.
Qed.

Lemma labels_reify_deep F : ∀ k n, F < k → labels_at k (reify F (found st) n) = [].
Proof.
  induction F as [|F IH]; intros k n Hk; (destruct k as [|k]; [lia|]).
  - done.
  - cbn [labels_at reify branch_children].
    rewrite flat_map_concat_map, map_map, <- flat_map_concat_map.
    apply flat_map_nil. intros x _. apply IH. lia.
Qed.

Lemma desc_level k : ∀ j, flat_map (desc st k) (level st j) = level st (j + k).
Proof.
  induction k as [|k IH]; intros j.
  - cbn [desc]. by rewrite flat_map_singleton, Nat.add_0_r.
  - cbn [desc]. rewrite <- flat_map_flat_map.
    change (flat_map (λ n, kids st (Some n)) (level st j)) with (level st (S j)).
    rewrite IH. f_equal. lia.
Qed.

(** The branches [S k] levels below the root of the tree read out with
    depth [F]. *)
Lemma labels_root F k :
  labels_at (S k) (Node "" (map (reify F (found st)) (output st))) =
  if decide (k ≤ F) then level st k else [].
Proof.
  cbn [labels_at branch_children].
  rewrite flat_map_concat_map, map_map, <- flat_map_concat_map.
  case_decide as Hk.
  - etrans; [|exact (desc_level k 0)].
    apply flat_map_ext. intros x. by apply labels_reify.
  - apply flat_map_nil. intros x _. apply labels_reify_deep. lia.
Qed.

Lemma edges_reify k : ∀ F n p c,
  (p, c) ∈ edges_at k (reify F (found st) n) → c ∈ kids st (Some p).
Proof.
  induction k as [|k IH]; intros F n p c.
  - destruct F as [|F]; cbn [edges_at reify branch_children branch_name map].
    + intros H. by apply elem_of_nil in H.
    + rewrite map_map. intros (x & [= -> ->] & Hx)%list_elem_of_fmap.
      by rewrite branch_name_reify.
  - destruct F as [|F]; cbn [edges_at reify branch_children flat_map].
    + intros H. by apply elem_of_nil in H.
    + rewrite flat_map_concat_map, map_map, <- flat_map_concat_map.
      intros (x & _ & Hx)%elem_of_flat_map. by apply IH in Hx.
Qed.

Lemma edges_labels k : ∀ (b : Branch) p c,
  (p, c) ∈ edges_at k b → p ∈ labels_at k b.
Proof.
  induction k as [|k IH]; intros b p c; cbn [edges_at labels_at].
  - intros (x & [= -> _] & _)%list_elem_of_fmap. by left.
  - intros (x & Hx & Hpc)%elem_of_flat_map. apply elem_of_flat_map.
    exists x. split; [done | by eapply IH].
Qed.

Lemma edges_root F k p c :
  (p, c) ∈ edges_at (S k) (Node "" (map (reify F (found st)) (output st))) →
  c ∈ kids st (Some p).
Proof.
  cbn [edges_at branch_children].
  rewrite flat_map_concat_map, map_map, <- flat_map_concat_map.
  intros (x & _ & Hx)%elem_of_flat_map. by apply edges_reify in Hx.
Qed.

End Reify.

(** *** The tree of [makeTree] *)

Section MakeTree.
Variable result : BuildResult.

Lemma makeTree_cases :
  makeTree result =
  match traversal result with
  | Normal st => Normal (Node "" (map (reify (size (found st)) (found st)) (output st)))
  | Throws e => Throws e
  | NoFuel => NoFuel
  end.
Proof. reflexivity. Qed.

(** X23. The loop of [makeTree] always ends. [makeTree] returns a tree
    exactly when every name the entry points lead to, through names
    that [Object.prototype] does not hand down, is a key of
    [result.tree], and throws on the member access exactly when one of
    them is not. *)
Theorem makeTree_total_iff :
  makeTree result ≠ NoFuel
  ∧ ((∀ n, reachable result n → is_Some (Obj.get n (tree result)))
     ↔ ∃ t, makeTree result = Normal t)
  ∧ ((∃ n, reachable result n ∧ Obj.get n (tree result) = None)
     ↔ makeTree result = Throws TypeError).
Proof.
  rewrite makeTree_cases. pose proof (traversal_spec result) as Hspec.
  destruct (traversal result) as [st|e|]; [| |done].
  - destruct Hspec as (Hq & d & par & cur & done & Hshape & Hbfs & _).
    assert (Hall : ∀ n, reachable result n → is_Some (Obj.get n (tree result))).
    { intros n [k Hk].
      destruct (final_complete result d par cur st Hshape Hbfs Hq k n Hk) as [Hf _].
      by apply (final_closed result d cur st Hbfs Hq n). }
    split_and!; [done | split; eauto |].
    split; [|done]. intros (n & Hn & Hnone). apply Hall in Hn as [? ?]. congruence.
  - destruct Hspec as (-> & n & Hn & Hnone).
    split_and!; [done | | split; eauto].
    split; [|by intros [? ?]]. intros Hall. apply Hall in Hn as [? ?]. congruence.
Qed.

(** X24. In the tree [makeTree] returns, every module that the entry
    points lead to, through names that [Object.prototype] does not hand
    down, is the name of exactly one branch, which lies as many levels
    below the root as the fewest hops that lead to the module, and of no
    branch on any other level; no other name occurs. The branches
    directly below the root are entry points, and every other branch
    hangs below the branch that found it
    first: a module that imports it and, among the importers on that
    level (none is higher, and the lower ones are visited later), the
    leftmost, which is the first the traversal takes off the queue. *)
Theorem makeTree_shortest_chain t :
  makeTree result = Normal t →
  (∀ n, reachable result n →
     ∃ dmin, min_hops result n dmin
             ∧ ∀ k, count_occ string_dec (labels_at (S k) t) n
                    = if decide (S k = dmin) then 1 else 0)
  ∧ (∀ k n, n ∈ labels_at (S k) t → reachable result n)
  ∧ (∀ n, n ∈ labels_at 1 t → n ∈ effectiveEntryPoints result)
  ∧ (∀ k p c, (p, c) ∈ edges_at (S k) t →
       c ∈ imports result p
       ∧ ∀ q, c ∈ imports result q → q ∈ labels_at (S k) t → q ≠ p →
              ∃ l1 l2 l3, labels_at (S k) t = l1 ++ p :: l2 ++ q :: l3).
Proof.
  rewrite makeTree_cases. pose proof (traversal_spec result) as Hspec.
  destruct (traversal result) as [st|e|]; [|done..].
  destruct Hspec as (Hq & d & par & cur & done & Hshape & Hbfs & Horder). intros [= <-].
  pose proof (level_spec d par cur st Hshape) as Hlevel.
  split_and!.
  - intros n [k0 Hhops].
    destruct (final_complete result d par cur st Hshape Hbfs Hq _ _ Hhops) as [Hf _].
    exists (d n). split; [by apply (final_min_hops result d par cur st)|].
    intros k. rewrite labels_root. destruct (Hlevel k) as [Hnd Hin].
    destruct (decide (k ≤ size (found st))) as [Hk|Hk].
    + destruct (decide (S k = d n)) as [Hkd|Hkd].
      * apply NoDup_count_occ'; [by apply NoDup_ListNoDup|].
        apply list_elem_of_In, Hin. split; [done | congruence].
      * apply count_occ_not_In. rewrite <- list_elem_of_In, Hin.
        intros [_ ?]. congruence.
    + rewrite decide_False; [done|].
      pose proof (si_depth_bound _ _ _ _ Hshape n Hf). lia.
  - intros k n. rewrite labels_root. case_decide; [|by intros ?%elem_of_nil].
    intros [Hf _]%Hlevel. exists (d n). by apply (bi_hops _ _ _ _ _ Hbfs).
  - intros n. rewrite labels_root. case_decide; [|by intros ?%elem_of_nil].
    apply (bi_kids _ _ _ _ _ Hbfs None).
  - intros k p c Hedge. pose proof (edges_labels _ _ _ _ Hedge) as Hp.
    apply edges_root in Hedge.
    split; [by apply (bi_kids _ _ _ _ _ Hbfs (Some p))|].
    intros q Himp Hqin Hqp. revert Hp Hqin. rewrite labels_root.
    case_decide; [|by intros ?%elem_of_nil].
    rewrite (oi_levels _ _ _ _ _ _ Horder k), Hq, app_nil_r.
    destruct (si_kids_par _ _ _ _ Hshape _ _ Hedge) as [Hcf Hpar].
    destruct (oi_first _ _ _ _ _ _ Horder c p Hcf Hpar) as (l1 & l2 & -> & Hl1).
    rewrite filter_app, filter_cons.
    intros Hp Hqin. case_decide as Hdp.
    + apply elem_of_app in Hqin as [Hqin|Hqin].
      { apply list_elem_of_filter in Hqin as [_ Hqin]. by destruct (Hl1 q Hqin). }
      apply elem_of_cons in Hqin as [->|Hqin]; [done|].
      apply list_elem_of_split in Hqin as (a & b & ->). by eexists _, a, b.
    + exfalso. apply elem_of_app in Hp as [Hp|Hp].
      * apply list_elem_of_filter in Hp as [Hp _]. done.
      * apply list_elem_of_filter in Hp as [Hp _]. done.
Qed.

End MakeTree.

(** *** Examples *)

Lemma hops_pos result k n : hops result k n → 1 ≤ k.
Proof. induction 1; lia. Qed.

(** The diamond [A -> B], [A -> C], [B -> C] entered at [A]. *)
Lemma makeTree_shortest_chain_witness :
  let result :=
    {| entryPoints := Some ["A"];
       tree := [("A", Sample.item ["B"; "C"]); ("B", Sample.item ["C"]);
                ("C", Sample.item [])] |} in
  let t := Node "" [Node "A" [Node "B" []; Node "C" []]] in
  makeTree result = Normal t
  ∧ (∀ n, reachable result n →
       ∃ dmin, min_hops result n dmin
               ∧ ∀ k, count_occ string_dec (labels_at (S k) t) n
                      = if decide (S k = dmin) then 1 else 0).
Proof.
  intros result t.
  assert (H : makeTree result = Normal t) by (vm_compute; reflexivity).
  split; [exact H|].
  exact (proj1 (makeTree_shortest_chain result t H)).
Defined.

(** The example of the design document: with entry point [A] and the
    imports [A -> B], [A -> C] and [B -> C], the module [C] is a child of
    [A], two levels below the root, and occurs nowhere else. *)
Example makeTree_diamond :
  let result :=
    {| entryPoints := Some ["A"];
       tree := [("A", Sample.item ["B"; "C"]); ("B", Sample.item ["C"]);
                ("C", Sample.item [])] |} in
  makeTree result = Normal (Node "" [Node "A" [Node "B" []; Node "C" []]])
  ∧ min_hops result "C" 2.
Proof.
  intros result. split; [vm_compute; reflexivity|]. split.
  - apply (hops_import _ 1 "A"); [apply hops_entry | |];
      first [reflexivity | (vm_compute; set_solver)].
  - intros k Hk. inversion Hk as [e He Hoe|k' n m Hn Hm Hom]; subst.
    + apply list_elem_of_In in He. cbn in He. by destruct He.
    + apply hops_pos in Hn. lia.
Qed.

(** Without reported entry points, the modules that nothing imports are
    taken. *)
Example inferredEntryPoints_example :
  inferredEntryPoints
    {| entryPoints := None;
       tree := [("A", Sample.item ["B"]); ("B", Sample.item [])] |} = ["A"].
Proof. vm_compute. reflexivity. Qed.

(** An import that the module table does not list stops [makeTree]. *)
Example makeTree_missing_module :
  makeTree {| entryPoints := Some ["A"]; tree := [("A", Sample.item ["B"])] |}
  = Throws TypeError.
Proof. vm_compute. reflexivity. Qed.

(** C6 on the code. [found] is a plain object and [report] tests it
    with [!found[name]], which [Object.prototype.toString] makes false
    for the name [toString] before anything is found. A module of that
    name, imported by the entry point [A], is therefore never reported:
    it is the name of no branch, and neither is the module [C], which only
    it imports. *)
Theorem makeTree_inherited_name_dropped :
  let result :=
    {| entryPoints := Some ["A"];
       tree := [("A", Sample.item ["B"; "toString"]); ("B", Sample.item []);
                ("toString", Sample.item ["C"]); ("C", Sample.item [])] |} in
  let t := Node "" [Node "A" [Node "B" []]] in
  "A" ∈ effectiveEntryPoints result
  ∧ "toString" ∈ imports result "A"
  ∧ "C" ∈ imports result "toString"
  ∧ is_Some (Obj.get "toString" (tree result))
  ∧ is_Some (Obj.get "C" (tree result))
  ∧ makeTree result = Normal t
  ∧ ∀ k, ("toString" ∉ labels_at k t) ∧ ("C" ∉ labels_at k t).
Proof.
  cbv zeta. split_and!.
  - vm_compute. set_solver.
  - vm_compute. set_solver.
  - vm_compute. set_solver.
  - by eexists.
  - by eexists.
  - vm_compute. reflexivity.
  - intros [|[|[|k]]]; cbn; set_solver.
Qed.

(** C9 on the code. The same test makes [makeTree] pass over a module
    that [result.tree] lacks when its name is one that
    [Object.prototype] hands down: the import [toString] of [A] is never
    put on the queue, the loop does not read [result.tree] under that
    name, and [makeTree] returns a tree without it, where the missing
    import [B] stops it. An entry point of such a name is passed over
    in the same way. *)
Theorem makeTree_inherited_name_skipped :
  let result :=
    {| entryPoints := Some ["A"]; tree := [("A", Sample.item ["toString"])] |} in
  let result' :=
    {| entryPoints := Some ["A"]; tree := [("A", Sample.item ["B"])] |} in
  let result'' :=
    {| entryPoints := Some ["constructor"; "A"]; tree := [("A", Sample.item [])] |} in
  ("toString" ∈ imports result "A"
   ∧ Obj.get "toString" (tree result) = None
   ∧ makeTree result = Normal (Node "" [Node "A" []]))
  ∧ ("B" ∈ imports result' "A"
     ∧ Obj.get "B" (tree result') = None
     ∧ makeTree result' = Throws TypeError)
  ∧ ("constructor" ∈ effectiveEntryPoints result''
     ∧ Obj.get "constructor" (tree result'') = None
     ∧ makeTree result'' = Normal (Node "" [Node "A" []])).
Proof.
  cbv zeta. split_and!; try (vm_compute; reflexivity); vm_compute; set_solver.
Qed.

(** * Further properties of the code *)

(** ** Tables, continued *)

Section ObjMore.
Context {V : Type}.
Implicit Types (o : list (string * V)) (k : string) (v : V).

Lemma obj_set_same o k v : Obj.get k o = Some v → Obj.set k v o = o.
Proof.
  induction o as [|[k0 v0] o IH]; cbn [Obj.get Obj.set]; [done|].
  destruct (String.eqb_spec k0 k) as [->|Hne].
  - by intros [= ->].
  - intros H. by rewrite IH.
Qed.

Lemma obj_set_set o k v : Obj.set k v (Obj.set k v o) = Obj.set k v o.
Proof. apply obj_set_same, obj_get_set_eq. Qed.

Lemma obj_set_Forall (P : string * V → Prop) o k v :
  Forall P o → P (k, v) → Forall P (Obj.set k v o).
Proof.
  intros Ho Hkv. induction Ho as [|[k0 v0] o H0 Ho IH]; cbn [Obj.set].
  - by apply Forall_singleton.
  - destruct (String.eqb_spec k0 k) as [->|Hne]; apply Forall_cons; by split.
Qed.

End ObjMore.

(** ** The interceptor on its other paths *)

Section InterceptorMore.
Variable E : Env.

(** One turn of the interceptor, case by case. *)
Lemma normalize_cases fuel name parentName parentAddress st :
  normalize (S fuel) E name parentName parentAddress st =
  let st0 := log (EvNormalize name parentName parentAddress) st in
  match oldNormalize E name parentName parentAddress with
  | Resolved pathName =>
      let st1 := log (EvStat (url2path (plat E) pathName)) st0 in
      if fs_stat E (url2path (plat E) pathName) then (Resolved pathName, st1)
      else newNormalize E (normalize fuel E) name parentName parentAddress
             (Some pathName) st1
  | Rejected _ => (Rejected TypeError, st0)
  | Pending => (Pending, st0)
  end.
Proof.
  cbn [normalize]. cbv zeta. destruct (oldNormalize E _ _ _) as [pathName|e|]; try done.
  unfold statAsync. by destruct (fs_stat E _).
Qed.

Lemma newNormalize_aliased self name parentName parentAddress st pathName other :
  alias E name = Some other →
  newNormalize E self name parentName parentAddress (Some pathName) st =
  self other parentName parentAddress st.
Proof. intros H. unfold newNormalize. by rewrite H. Qed.

Lemma findPackage_fixTbl name parent st :
  fixTbl (snd (findPackage E name parent st)) = fixTbl st.
Proof.
  destruct parent as [parentName|]; [|done].
  rewrite findPackage_cases; cbv zeta.
  destruct (resolved _) as [p|msg|]; [|done..]. by destruct (String.eqb p name).
Qed.

(** X1. A candidate path that exists is the answer, for an aliased name
    as for any other: the alias map, the index path and the package
    resolver are not looked at, and neither table changes. *)
Theorem normalize_existing fuel name parentName parentAddress st pathName :
  oldNormalize E name parentName parentAddress = Resolved pathName →
  fs_stat E (url2path (plat E) pathName) = true →
  let r := normalize (S fuel) E name parentName parentAddress st in
  fst r = Resolved pathName
  ∧ fixTbl (snd r) = fixTbl st
  ∧ repoTbl (snd r) = repoTbl st
  ∧ trace (snd r) =
      trace st ++ [ EvNormalize name parentName parentAddress;
                    EvStat (url2path (plat E) pathName) ].
Proof.
  intros Hold Hstat. cbv zeta. rewrite normalize_cases, Hold. cbv zeta.
  rewrite Hstat. unfold log; cbn [fst snd fixTbl repoTbl trace].
  by rewrite <- app_assoc.
Qed.

(** X2. The interceptor rejects with a [TypeError] on the undefined
    candidate path, and with nothing else: it does so when the original
    normalizer rejects, whatever the reason, and a rejection that leaves
    it always goes back to a rejection of the original normalizer, for
    the name itself or for a name that the alias map leads to from
    it. *)
Theorem normalize_rejections :
  (∀ fuel name parentName parentAddress st e,
     oldNormalize E name parentName parentAddress = Rejected e →
     normalize (S fuel) E name parentName parentAddress st =
     (Rejected TypeError, log (EvNormalize name parentName parentAddress) st))
  ∧ (∀ fuel name parentName parentAddress st e,
       fst (normalize fuel E name parentName parentAddress st) = Rejected e →
       e = TypeError
       ∧ ∃ other e',
           aliases_to E name other
           ∧ oldNormalize E other parentName parentAddress = Rejected e').
Proof.
  split.
  - intros fuel name parentName parentAddress st e Hold.
    by rewrite normalize_cases, Hold.
  - induction fuel as [|fuel IH]; intros name parentName parentAddress st e; [done|].
    rewrite normalize_cases. cbv zeta.
    destruct (oldNormalize E name parentName parentAddress) as [pathName|e'|] eqn:Hold.
    + destruct (fs_stat E (url2path (plat E) pathName)); [done|].
      destruct (alias E name) as [other|] eqn:Halias.
      * rewrite (newNormalize_aliased _ _ _ _ _ _ _ Halias).
        intros (-> & last & e' & Hchain & Hlast)%IH. split; [done|].
        exists last, e'. split; [|done]. by apply (rtc_l _ _ other).
      * rewrite (newNormalize_unaliased _ _ _ _ _ _ _ Halias). cbv zeta.
        destruct (fs_stat E _); [done|].
        destruct (findPackage E name parentName _) as [[p|e0|] st']; done.
    + intros [= <-]. split; [done|]. exists name, e'. split; [apply rtc_refl | done].
    + done.
Qed.

(** X3. Names whose candidate paths are missing and whose aliases stay
    among themselves never normalize: whatever the fuel, the promise of
    the interceptor is still pending. *)
Theorem normalize_alias_cycle (cycle : string → Prop) parentName parentAddress :
  (∀ name, cycle name →
     ∃ pathName other,
       oldNormalize E name parentName parentAddress = Resolved pathName
       ∧ fs_stat E (url2path (plat E) pathName) = false
       ∧ alias E name = Some other ∧ cycle other) →
  ∀ fuel name st, cycle name →
    fst (normalize fuel E name parentName parentAddress st) = Pending.
Proof.
  intros Hcycle. induction fuel as [|fuel IH]; intros name st Hname; [done|].
  destruct (Hcycle name Hname) as (pathName & other & Hold & Hstat & Halias & Hother).
  rewrite normalize_cases, Hold. cbv zeta. rewrite Hstat.
  rewrite (newNormalize_aliased _ _ _ _ _ _ _ Halias). by apply IH.
Qed.

Lemma dot_slash_prefixed s : dot_slash ("./" +:+ s) = true.
Proof. reflexivity. Qed.

(** X4. The fix table only ever holds paths that begin with [./]: a
    call of the interceptor keeps that, whatever it answers. *)
Theorem normalize_fix_prefixed fuel : ∀ name parentName parentAddress st,
  fix_prefixed (fixTbl st) →
  fix_prefixed (fixTbl (snd (normalize fuel E name parentName parentAddress st))).
Proof.
  induction fuel as [|fuel IH]; intros name parentName parentAddress st Hst; [done|].
  rewrite normalize_cases. cbv zeta.
  destruct (oldNormalize E name parentName parentAddress) as [pathName|e'|]; [|done..].
  destruct (fs_stat E (url2path (plat E) pathName)); [done|].
  destruct (alias E name) as [other|] eqn:Halias.
  - rewrite (newNormalize_aliased _ _ _ _ _ _ _ Halias). by apply IH.
  - rewrite (newNormalize_unaliased _ _ _ _ _ _ _ Halias). cbv zeta.
    destruct (fs_stat E _).
    + cbn [snd setFix fixTbl]. apply obj_set_Forall; [done|].
      cbn [fst snd]. by rewrite !dot_slash_prefixed.
    + pose proof (findPackage_fixTbl name parentName
                    (log (EvStat (url2path (plat E) (index_name pathName)))
                       (log (EvStat (url2path (plat E) pathName))
                          (log (EvNormalize name parentName parentAddress) st)))) as Hfix.
      destruct (findPackage E name parentName _) as [[p|e0|] st'];
        cbn [pcatch snd] in *; by rewrite Hfix.
Qed.

(** X5. [findPackage] never changes the fix table and, unless it
    resolves, never the repository table. For a defined parent it calls
    the resolver exactly once, whatever the resolver answers. For an
    undefined parent it calls nothing: it is rejected with the
    [TypeError] of [url2path] and the session is as it was. *)
Theorem findPackage_footprint name parent st :
  let r := findPackage E name parent st in
  fixTbl (snd r) = fixTbl st
  ∧ ((∀ p, fst r ≠ Resolved p) → repoTbl (snd r) = repoTbl st)
  ∧ match parent with
    | Some parentName =>
        trace (snd r) = trace st ++ [EvResolve name (url2path (plat E) parentName)]
    | None => r = (Rejected TypeError, st)
    end.
Proof.
  cbv zeta. destruct parent as [parentName|]; [|done].
  rewrite findPackage_cases; cbv zeta.
  destruct (resolved _) as [p|msg|]; [|done..].
  destruct (String.eqb p name); [done|]. split_and!; [done | | done].
  intros H. by destruct (H _ eq_refl).
Qed.

(** X6. Resolving the same package again from the same place changes
    nothing more: the second call gives the same path and leaves the
    repository table as the first call left it. *)
Theorem findPackage_idempotent name parent st p st1 :
  findPackage E name parent st = (Resolved p, st1) →
  let r := findPackage E name parent st1 in
  fst r = Resolved p ∧ repoTbl (snd r) = repoTbl st1 ∧ fixTbl (snd r) = fixTbl st1.
Proof.
  destruct parent as [parentName|]; [|done].
  rewrite !findPackage_cases; cbv zeta.
  destruct (resolved _) as [pathName|msg|]; [|done..].
  destruct (String.eqb pathName name); [done|].
  intros [= <- <-]. split_and!; [done| |done].
  unfold setRepo, log; cbn [repoTbl fst snd].
  rewrite obj_get_set_eq, obj_set_set. apply obj_set_set.
Qed.

End InterceptorMore.

(** ** The codec in the other direction *)

Section CodecMore.

Local Abbreviation to_slashes := (Str.replace_char Str.backslash Str.slash).
Local Abbreviation to_backslashes := (Str.replace_char Str.slash Str.backslash).

Lemma replace_forth s :
  Str.has_char Str.backslash s = false → to_slashes (to_backslashes s) = s.
Proof.
  unfold Str.replace_char. induction s as [|c s IH]; simpl; [done|].
  intros [Hc Hs]%orb_false_iff. rewrite (IH Hs).
  destruct (Ascii.eqb_spec c Str.slash) as [->|Hsl]; [done|]. by rewrite Hc.
Qed.

(** X7. A file URL with three slashes comes back from [url2path] and
    [path2url] as it was; on Windows this needs the URL to be free of
    backslashes. *)
Theorem path2url_url2path plat r :
  (plat = Win32 → Str.has_char Str.backslash r = false) →
  path2url plat (url2path plat ("file:///" +:+ r)) = "file:///" +:+ r.
Proof.
  destruct plat; intros Hr.
  - reflexivity.
  - specialize (Hr eq_refl).
    rewrite url2path_win32_file, path2url_win32_cases. cbv zeta.
    destruct (Str.has_drive r) eqn:Hd.
    + by rewrite (replace_forth r Hr), Hd.
    + rewrite (replace_forth (String Str.slash r)) by exact Hr. reflexivity.
Qed.

(** X8. [path2url] never answers with a path that begins with a slash:
    an absolute path gets the file scheme, anything else stays relative;
    only the empty path gives the empty URL. *)
Theorem path2url_not_rooted plat p :
  match path2url plat p with
  | String c _ => c ≠ Str.slash
  | EmptyString => p = ""
  end.
Proof.
  assert (Hgen : ∀ u, match (match u with
                              | String c r =>
                                  if Ascii.eqb c Str.slash then "file:///" +:+ r else u
                              | EmptyString => u
                              end) with
                      | String c _ => c ≠ Str.slash
                      | EmptyString => u = ""
                      end).
  { intros [|c r]; [done|]. by destruct (Ascii.eqb_spec c Str.slash). }
  destruct plat.
  - apply Hgen.
  - unfold path2url. cbn [path_sep]. cbv zeta.
    set (u := Str.replace_char Str.backslash Str.slash p).
    destruct (Str.has_drive u) eqn:Hd.
    + cbn [Ascii.eqb]. rewrite Ascii.eqb_refl. done.
    + specialize (Hgen u). destruct u as [|c r] eqn:Hu.
      * by destruct p.
      * destruct (Ascii.eqb c Str.slash); exact Hgen.
Qed.

(** X20. Applying [path2url] to its own result changes nothing on
    POSIX. On Windows a file URL is taken for a path with a drive, the
    scheme standing for the drive letters, and gets the scheme a second
    time. *)
Theorem path2url_twice :
  (∀ p, path2url Posix (path2url Posix p) = path2url Posix p)
  ∧ (∀ r, path2url Win32 ("file:///" +:+ r) = "file:///file:///" +:+ to_slashes r).
Proof.
  split.
  - intros [|c r]; [done|]. unfold path2url. cbv zeta.
    destruct (Ascii.eqb_spec c Str.slash) as [->|Hc]; [done|].
    by destruct (Ascii.eqb_spec c Str.slash).
  - intros r. rewrite path2url_win32_cases. cbv zeta.
    replace (to_slashes ("file:///" +:+ r)) with ("file:///" +:+ to_slashes r)
      by reflexivity.
    rewrite (file_scheme_has_drive _ (String Str.slash (to_slashes r))); reflexivity.
Qed.

End CodecMore.

(** ** The index path *)

Lemma eqb_js_long pre c : String.eqb (pre +:+ String c "js") "js" = false.
Proof.
  apply String.eqb_neq. intros H. apply (f_equal String.length) in H.
  rewrite append_length in H. cbn in H. lia.
Qed.

(** X9. The index-path pattern fires on every path whose last three
    characters are any character but a line terminator followed by
    [js], a dot or not, and puts [/index.js] in their place; a path
    with no such ending is left as it is. *)
Theorem index_name_fires s :
  (∀ pre c, s = pre +:+ String c "js" → Str.is_line_terminator c = false →
            index_name s = pre +:+ "/index.js")
  ∧ ((∀ pre c, s = pre +:+ String c "js" → Str.is_line_terminator c = true) →
     index_name s = s).
Proof.
  split.
  - intros pre c -> Hc. induction pre as [|a pre IH].
    + change ("" +:+ String c "js") with (String c "js").
      cbn [index_name]. rewrite String.eqb_refl, Hc. reflexivity.
    + change (String a pre +:+ String c "js") with (String a (pre +:+ String c "js")).
      cbn [index_name]. rewrite eqb_js_long. cbn [andb].
      by rewrite IH.
  - induction s as [|a s IH]; [done|]. intros Hall. cbn [index_name].
    destruct (String.eqb_spec s "js") as [->|Hs].
    + rewrite (Hall "" a eq_refl). cbn [negb andb]. reflexivity.
    + cbn [andb]. f_equal. apply IH. intros pre c ->.
      apply (Hall (String a pre) c eq_refl).
Qed.

(** ** The grouping key as a function of the root path *)

Section KeyMore.

Lemma is_container_prefix_app a x :
  is_container_prefix a = true → is_container_prefix (a +:+ x) = true.
Proof.
  intros (nm & r & -> & _ & _ & Hall)%is_container_prefix_split.
  rewrite append_assoc.
  change (String Str.slash r +:+ x) with (String Str.slash (r +:+ x)). apply Hall.
Qed.

Lemma is_container_prefix_long s :
  is_container_prefix s = true → 13 ≤ String.length s.
Proof.
  intros (nm & r & -> & Hlen & _)%is_container_prefix_split.
  rewrite append_length, Hlen. cbn. lia.
Qed.

Lemma truncate_at_short s : ∀ b, String.length s < 13 → truncate_at b s = s.
Proof.
  induction s as [|c s IH]; intros b Hlen; [done|]. cbn [truncate_at].
  destruct (is_container_prefix (String c s)) eqn:Hcp.
  - apply is_container_prefix_long in Hcp. lia.
  - rewrite andb_false_r. f_equal. apply IH. cbn in Hlen. lia.
Qed.

Lemma truncate_at_prefix s : ∀ b, ∃ rest, s = truncate_at b s +:+ rest.
Proof.
  induction s as [|c s IH]; intros b; [by exists ""|]. cbn [truncate_at].
  destruct (b && is_container_prefix (String c s)) eqn:Hb.
  - apply andb_true_iff in Hb as [_ Hcp].
    apply is_container_prefix_split in Hcp as (nm & r & Hs & Hlen & _).
    exists (String Str.slash r). by rewrite Hs, <- Hlen, substring_prefix.
  - destruct (IH (Ascii.eqb c Str.slash)) as [rest Hrest]. exists rest.
    change (String c (truncate_at (Ascii.eqb c Str.slash) s) +:+ rest)
      with (String c (truncate_at (Ascii.eqb c Str.slash) s +:+ rest)).
    by rewrite <- Hrest.
Qed.

Lemma truncate_at_idem s : ∀ b, truncate_at b (truncate_at b s) = truncate_at b s.
Proof.
  induction s as [|c s IH]; intros b; [done|]. cbn [truncate_at].
  destruct (b && is_container_prefix (String c s)) eqn:Hb.
  - apply andb_true_iff in Hb as [_ Hcp].
    apply is_container_prefix_split in Hcp as (nm & r & Hs & Hlen & _).
    rewrite Hs, <- Hlen, substring_prefix. apply truncate_at_short. lia.
  - cbn [truncate_at].
    assert (Hb' : b && is_container_prefix
                         (String c (truncate_at (Ascii.eqb c Str.slash) s)) = false).
    { destruct b; [|done]. cbn [andb] in *.
      destruct (is_container_prefix (String c (truncate_at _ s))) eqn:Hcp; [|done].
      destruct (truncate_at_prefix s (Ascii.eqb c Str.slash)) as [rest Hrest].
      apply (is_container_prefix_app _ rest) in Hcp.
      change (String c (truncate_at (Ascii.eqb c Str.slash) s) +:+ rest)
        with (String c (truncate_at (Ascii.eqb c Str.slash) s +:+ rest)) in Hcp.
      rewrite <- Hrest in Hcp. congruence. }
    rewrite Hb'. f_equal. apply IH.
Qed.

(** X10. On a root path without line terminators the grouping key is a
    leading part of the root path, and it is its own key: computing the
    key of a key gives the key again. *)
Theorem repo_path_stable s :
  has_line_terminator s = false →
  (∃ rest, s = repo_path s +:+ rest)
  ∧ repo_path (repo_path s) = repo_path s.
Proof.
  intros Hs. rewrite (repo_path_truncate s Hs). unfold truncate_at_container.
  destruct (truncate_at_prefix s true) as [rest Hrest].
  split; [by exists rest|].
  rewrite repo_path_truncate.
  - apply truncate_at_idem.
  - rewrite Hrest, has_line_terminator_app in Hs. by apply orb_false_iff in Hs as [? _].
Qed.

End KeyMore.

(** ** The emitted text and the order of the repository table *)

Section EmitterMore.

Lemma obj_set_fresh {V} (o : list (string * V)) k v :
  k ∉ Obj.keys o → Obj.set k v o = o ++ [(k, v)].
Proof.
  unfold Obj.keys. induction o as [|[k0 v0] o IH]; cbn [Obj.set map fst]; [done|].
  intros [Hk Ho]%not_elem_of_cons.
  destruct (String.eqb_spec k0 k) as [->|_]; [done|]. cbn. by rewrite IH.
Qed.

Lemma assign_all_fresh {V} (l acc : list (string * V)) :
  NoDup (map fst (acc ++ l)) → assign_all l acc = acc ++ l.
Proof.
  unfold assign_all. revert acc. induction l as [|[k v] l IH]; intros acc Hnd; cbn [fold_left].
  - by rewrite app_nil_r.
  - cbn [fst snd]. rewrite obj_set_fresh.
    + rewrite IH; rewrite <- app_assoc; [done|]. exact Hnd.
    + rewrite map_app in Hnd. apply NoDup_app in Hnd as (_ & Hdisj & _).
      unfold Obj.keys. intros Hk. apply (Hdisj k Hk). cbn. by left.
Qed.

(** Going through the keys of a table and reading each entry is going
    through its entries. *)
Lemma fold_keys_entries {V A} (f : A → string → V → A) (o l : list (string * V)) acc :
  (∀ k v, (k, v) ∈ l → Obj.get k o = Some v) →
  fold_left (λ a k, match Obj.get k o with Some v => f a k v | None => a end)
    (Obj.keys l) acc
  = fold_left (λ a kv, f a (fst kv) (snd kv)) l acc.
Proof.
  unfold Obj.keys. revert acc. induction l as [|[k v] l IH]; intros acc Hl; [done|].
  cbn [map fold_left fst snd]. rewrite (Hl k v) by by left.
  apply IH. intros k' v' Hin. apply Hl. by right.
Qed.

Lemma fold_keys_wf {V A} (f : A → string → V → A) (o : list (string * V)) acc :
  Obj.wf o →
  fold_left (λ a k, match Obj.get k o with Some v => f a k v | None => a end)
    (Obj.keys o) acc
  = fold_left (λ a kv, f a (fst kv) (snd kv)) o acc.
Proof.
  intros Hwf. apply fold_keys_entries. intros k v Hin.
  apply obj_get_In_wf; [done | by apply list_elem_of_In].
Qed.

Lemma NoDup_entries_wf (r : list (string * list (string * PackageSpec))) k repo :
  NoDup (map fst (repo_entries r)) → (k, repo) ∈ r → Obj.wf repo.
Proof.
  unfold repo_entries, Obj.wf, Obj.keys.
  induction r as [|[k0 repo0] r IH]; cbn [map snd concat]; [by intros _ ?%elem_of_nil|].
  rewrite map_app. intros (H0 & _ & Hr)%NoDup_app [[= -> ->]|Hin]%elem_of_cons; [done|].
  by apply IH.
Qed.

(** With every package name recorded once, the copy of the
    repositories into one table is the list of their entries. *)
Lemma flattenRepos_entries r :
  Obj.wf r → NoDup (map fst (repo_entries r)) → flattenRepos r = repo_entries r.
Proof.
  intros Hwf Hnd. unfold flattenRepos.
  rewrite (fold_keys_wf
             (λ tbl _ repo,
                fold_left (λ tbl n, match Obj.get n repo with
                                    | Some spec => Obj.set n spec tbl
                                    | None => tbl
                                    end) (Obj.keys repo) tbl) r [] Hwf).
  assert (Hgen : ∀ l acc,
             (∀ k repo, (k, repo) ∈ l → Obj.wf repo) →
             fold_left
               (λ a (kv : string * list (string * PackageSpec)),
                  fold_left (λ tbl n, match Obj.get n (snd kv) with
                                      | Some spec => Obj.set n spec tbl
                                      | None => tbl
                                      end) (Obj.keys (snd kv)) a) l acc
             = assign_all (repo_entries l) acc).
  { induction l as [|[k repo] l IH]; intros acc Hl; [done|].
    cbn [fold_left snd]. rewrite IH by (intros k' repo' Hin; apply (Hl k'); by right).
    rewrite (fold_keys_wf (λ tbl n spec, Obj.set n spec tbl) repo acc)
      by (apply (Hl k); by left).
    unfold repo_entries, assign_all. cbn [map snd concat]. by rewrite fold_left_app. }
  rewrite Hgen.
  - by apply assign_all_fresh.
  - intros k repo Hin. by apply (NoDup_entries_wf r k).
Qed.

Lemma metaSection_keys_perm r1 r2 shimPath :
  Obj.keys r1 ≡ₚ Obj.keys r2 → metaSection r1 shimPath = metaSection r2 shimPath.
Proof.
  intros Hperm. unfold metaSection, metaRows. by rewrite (sort_strings_perm _ _ Hperm).
Qed.

Lemma packagesSection_perm t1 t2 fixTbl :
  Obj.wf t1 → t1 ≡ₚ t2 → packagesSection t1 fixTbl = packagesSection t2 fixTbl.
Proof.
  intros Hwf Hperm. unfold packagesSection.
  assert (Hkeys : sort_strings (Obj.keys t1) = sort_strings (Obj.keys t2)).
  { apply sort_strings_perm. unfold Obj.keys. by rewrite Hperm. }
  rewrite Hkeys.
  assert (Hrow : ∀ name, mainRow t1 name = mainRow t2 name).
  { intros name. unfold mainRow. by rewrite (obj_get_perm t1 t2 name Hwf Hperm). }
  assert (Homap : ∀ l : list string, omap (mainRow t1) l = omap (mainRow t2) l).
  { induction l as [|x l IH]; [done|]. cbn. by rewrite Hrow, IH. }
  by rewrite Homap.
Qed.

(** X11. As long as every package name is recorded once, the emitted
    text does not depend on the order in which repositories and packages
    were entered into the repository table: two tables with the same
    keys and the same entries, in any order, give the same text for the
    same fix table. *)
Theorem writeConfig_repo_order readFile options r1 r2 fixTbl shimPath :
  Obj.wf r1 → Obj.wf r2 →
  NoDup (map fst (repo_entries r1)) →
  Obj.keys r1 ≡ₚ Obj.keys r2 →
  repo_entries r1 ≡ₚ repo_entries r2 →
  writeConfig readFile options r1 fixTbl shimPath
  = writeConfig readFile options r2 fixTbl shimPath.
Proof.
  intros Hwf1 Hwf2 Hnd Hkeys Hentries.
  assert (Hnd2 : NoDup (map fst (repo_entries r2))) by by rewrite <- Hentries.
  assert (Hsections : sectionList r1 fixTbl shimPath = sectionList r2 fixTbl shimPath).
  { unfold sectionList. cbv zeta.
    rewrite !flattenRepos_entries by done.
    rewrite (mapSection_perm _ _ Hnd Hentries),
            (metaSection_keys_perm _ _ _ Hkeys),
            (packagesSection_perm _ _ _ Hnd Hentries). done. }
  unfold writeConfig. cbv zeta. by rewrite Hsections.
Qed.

Lemma readAll_app readFile l1 l2 :
  readAll readFile (l1 ++ l2) =
  match readAll readFile l1 with
  | Normal t1 =>
      match readAll readFile l2 with
      | Normal t2 => Normal (t1 ++ t2)
      | other => other
      end
  | other => other
  end.
Proof.
  induction l1 as [|p l1 IH]; cbn [readAll app].
  - by destruct (readAll readFile l2).
  - destruct (readFile p); [|done]. rewrite IH.
    destruct (readAll readFile l1); [|done..]. by destruct (readAll readFile l2).
Qed.

Lemma readAll_readable readFile l :
  Forall (λ q, is_Some (readFile q)) l → ∃ texts, readAll readFile l = Normal texts.
Proof.
  induction 1 as [|q l [t Ht] _ [texts IH]]; cbn [readAll]; [by eexists|].
  rewrite Ht, IH. by eexists.
Qed.

(** X12. The included files are read in the order given, and the first
    one that cannot be read stops [writeConfig] with the error of that
    read: nothing is written, whatever the tables hold and whatever
    comes later in the list. *)
Theorem writeConfig_read_failure readFile options repoTbl fixTbl shimPath l1 p l2 :
  includeConfigList options = Some (l1 ++ p :: l2) →
  Forall (λ q, is_Some (readFile q)) l1 →
  readFile p = None →
  writeConfig readFile options repoTbl fixTbl shimPath = Throws (ReadError p).
Proof.
  intros Hinc Hl1 Hp. unfold writeConfig. cbv zeta. rewrite Hinc, readAll_app.
  destruct (readAll_readable _ _ Hl1) as [texts ->]. cbn [readAll]. by rewrite Hp.
Qed.

End EmitterMore.

(** ** Entry points and the root of the tree *)

Section TreeMore.
Variable result : BuildResult.

Lemma elem_of_import_fold item (ds : list string) (acc : gset string) x :
  x ∈ fold_left (λ tbl dep, {[depTarget item dep]} ∪ tbl) ds acc
  ↔ x ∈ acc ∨ x ∈ map (depTarget item) ds.
Proof.
  revert acc. induction ds as [|dep ds IH]; intros acc; cbn [fold_left map].
  - set_solver.
  - rewrite IH. set_solver.
Qed.

Lemma elem_of_imported_fold (ks : list string) (acc : gset string) x :
  x ∈ fold_left
        (λ tbl name,
           match Obj.get name (tree result) with
           | Some item =>
               fold_left (λ tbl dep, {[depTarget item dep]} ∪ tbl) (deps item) tbl
           | None => tbl
           end) ks acc
  ↔ x ∈ acc ∨ ∃ k, k ∈ ks ∧ x ∈ imports result k.
Proof.
  revert acc. induction ks as [|k ks IH]; intros acc; cbn [fold_left].
  - split; [by left|]. intros [H|(k & Hk & _)]; [done|]. by apply elem_of_nil in Hk.
  - rewrite IH. unfold imports at 2.
    destruct (Obj.get k (tree result)) as [item|] eqn:Hget.
    + rewrite elem_of_import_fold. split.
      * intros [[H|H]|(k' & Hk' & H)]; [by left| |].
        -- right. exists k. split; [by left|]. unfold imports. by rewrite Hget.
        -- right. exists k'. split; [by right | done].
      * intros [H|(k' & [->|Hk']%elem_of_cons & H)].
        -- by left; left.
        -- left; right. unfold imports in H. by rewrite Hget in H.
        -- right. by exists k'.
    + split.
      * intros [H|(k' & Hk' & H)]; [by left|]. right. exists k'. split; [by right | done].
      * intros [H|(k' & [->|Hk']%elem_of_cons & H)]; [by left | | right; by exists k'].
        unfold imports in H. rewrite Hget in H. by apply elem_of_nil in H.
Qed.

(** The names stored in the table of imported modules are the targets
    of the imports of the modules of [result.tree]. *)
Lemma elem_of_importedNames x :
  x ∈ importedNames result ↔ ∃ k, x ∈ imports result k.
Proof.
  unfold importedNames. rewrite elem_of_imported_fold. split.
  - intros [H|(k & _ & H)]; [set_solver | by exists k].
  - intros (k & H). right. exists k. split; [|done].
    destruct (decide (k ∈ Obj.keys (tree result))) as [Hin|Hout]; [done|].
    apply obj_get_None_keys in Hout. unfold imports in H. rewrite Hout in H.
    by apply elem_of_nil in H.
Qed.

Lemma importedTbl_false name :
  importedTbl result name = false
  ↔ Proto.inherited name = false ∧ ∀ k, name ∉ imports result k.
Proof.
  unfold importedTbl. rewrite orb_false_iff, bool_decide_eq_false, elem_of_importedNames.
  split.
  - intros [Hown Hno]. split; [done|]. intros k Hk. apply Hno. by exists k.
  - intros [Hown Hno]. split; [done|]. intros (k & Hk). by apply (Hno k).
Qed.

Lemma elem_of_inferredEntryPoints name :
  name ∈ inferredEntryPoints result
  ↔ name ∈ Obj.keys (tree result)
    ∧ Proto.inherited name = false ∧ ∀ k, name ∉ imports result k.
Proof.
  unfold inferredEntryPoints. rewrite list_elem_of_filter, importedTbl_false. tauto.
Qed.

(** X13. The entry points taken when the bundler reported none are, in
    the order of the module table, the modules of [result.tree] that no
    module of [result.tree] imports and whose name [Object.prototype]
    does not hand down: the table of imported modules is a plain object,
    and such a name reads as imported. *)
Theorem inferredEntryPoints_spec :
  inferredEntryPoints result `sublist_of` Obj.keys (tree result)
  ∧ ∀ name, name ∈ inferredEntryPoints result
            ↔ name ∈ Obj.keys (tree result)
              ∧ Proto.inherited name = false ∧ ∀ k, name ∉ imports result k.
Proof.
  split; [apply sublist_filter | apply elem_of_inferredEntryPoints].
Qed.

(** X14. When the bundler reported no entry points and every module of
    [result.tree] is imported by some module, as in a bundle whose
    modules import each other in a cycle, no entry point is inferred and
    the tree is the bare root. *)
Theorem makeTree_all_imported :
  entryPoints result = None →
  (∀ name, name ∈ Obj.keys (tree result) → ∃ k, name ∈ imports result k) →
  makeTree result = Normal (Node "" []).
Proof.
  intros Hnone Hall.
  assert (Hnil : effectiveEntryPoints result = []).
  { unfold effectiveEntryPoints. rewrite Hnone. apply elem_of_nil_inv.
    intros name (Hin & _ & Hno)%elem_of_inferredEntryPoints.
    destruct (Hall name Hin) as (k & Hk). by apply (Hno k). }
  unfold makeTree, traversal. rewrite Hnil. reflexivity.
Qed.

Lemma report_output_below m b st : output (report m (Some b) st) = output st.
Proof. unfold report. destruct (Proto.inherited m); [done|]. by destruct (found st !! m). Qed.

Lemma report_output_root m st :
  Proto.inherited m = false → found st !! m = None →
  output (report m None st) = output st ++ [m].
Proof. intros Hown H. unfold report. by rewrite Hown, H. Qed.

Lemma reports_output_below (f : string → string) b (ds : list string) : ∀ st,
  output (fold_left (λ st dep, report (f dep) (Some b) st) ds st) = output st.
Proof.
  induction ds as [|dep ds IH]; intros st; cbn [fold_left]; [done|].
  by rewrite IH, report_output_below.
Qed.

(** The loop never touches the root. *)
Lemma drain_output fuel : ∀ st st',
  drain fuel result st = Normal st' → output st' = output st.
Proof.
  induction fuel as [|fuel IH]; intros st st'; cbn [drain]; [done|].
  destruct (queue st) as [|name rest]; [by intros [= ->]|].
  destruct (Obj.get name (tree result)) as [item|]; [|done].
  intros H%IH. by rewrite H, reports_output_below.
Qed.

Lemma reportAll_output (l : list string) : ∀ st,
  output (reportAll l None st)
  = output st
    ++ uniq_from (dom (found st)) (filter (λ n, Proto.inherited n = false) l).
Proof.
  induction l as [|m l IH]; intros st; cbn [reportAll fold_left].
  - by rewrite app_nil_r.
  - change (fold_left (λ st name, report name None st) l (report m None st))
      with (reportAll l None (report m None st)).
    rewrite IH, filter_cons. destruct (Proto.inherited m) eqn:Hown.
    + rewrite decide_False by done. by rewrite report_inherited.
    + rewrite decide_True by done. cbn [uniq_from].
      destruct (found st !! m) as [kids|] eqn:Hm.
      * rewrite (report_found _ _ _ _ Hm).
        rewrite decide_True; [done|]. apply elem_of_dom. by eexists.
      * rewrite report_output_root, report_fresh_dom by done.
        rewrite decide_False by by apply not_elem_of_dom.
        by rewrite <- app_assoc.
Qed.

(** X15. The root has the empty name, and the branches directly below
    it are the entry points whose name [Object.prototype] does not hand
    down, in the order given, each once, at its first occurrence. *)
Theorem makeTree_root_children t :
  makeTree result = Normal t →
  branch_name t = ""
  ∧ map branch_name (branch_children t)
    = uniq_from ∅ (filter (λ n, Proto.inherited n = false) (effectiveEntryPoints result)).
Proof.
  unfold makeTree, traversal.
  destruct (drain _ result _) as [st| |] eqn:Hdrain; [|done..].
  intros [= <-]. split; [done|]. cbn [branch_children].
  rewrite map_map. apply drain_output in Hdrain. rewrite reportAll_output in Hdrain.
  cbn [output emptyTree found app] in Hdrain. rewrite dom_empty_L in Hdrain.
  rewrite <- Hdrain. clear Hdrain. induction (output st) as [|x l IH]; [done|].
  cbn [map]. by rewrite branch_name_reify, IH.
Qed.

End TreeMore.

(** X16. The first report of a name wins: reporting it again, under
    any branch, changes nothing. *)
Theorem report_idempotent name branch branch' st :
  report name branch' (report name branch st) = report name branch st.
Proof.
  destruct (Proto.inherited name) eqn:Hown.
  { by rewrite !report_inherited. }
  destruct (found st !! name) as [kids|] eqn:Hfound.
  - by rewrite !(report_found _ _ _ _ Hfound).
  - assert (Hin : name ∈ dom (found (report name branch st))).
    { rewrite report_fresh_dom by done. set_solver. }
    apply elem_of_dom in Hin as [kids Hkids]. by apply (report_found _ _ _ kids).
Qed.

(** ** The two revisions of the resolver adapter *)

Section Revisions.
Variable E : Env.

(** X17. The earlier revision of [findPackage] settles exactly as the
    later one does. It never touches the fix table. On success it files
    the returned path under the package name and marks the repository
    key taken from that path; otherwise it leaves both tables alone.
    For a defined parent it calls the resolver once; for an undefined
    one it is rejected by [url2path] before any call, the session as it
    was. *)
Theorem findPackageV1_agrees name parent st st1 :
  let r := findPackage E name parent st in
  let r1 := findPackageV1 E name parent st1 in
  fst r1 = fst r
  ∧ fixTbl1 (snd r1) = fixTbl1 st1
  ∧ (∀ p, fst r1 = Resolved p →
       pathTbl1 (snd r1) = Obj.set name p (pathTbl1 st1)
       ∧ Obj.get name (pathTbl1 (snd r1)) = Some p
       ∧ repoTbl1 (snd r1) = Obj.set (repo_path p) true (repoTbl1 st1)
       ∧ Obj.get (repo_path p) (repoTbl1 (snd r1)) = Some true)
  ∧ ((∀ p, fst r1 ≠ Resolved p) →
       pathTbl1 (snd r1) = pathTbl1 st1 ∧ repoTbl1 (snd r1) = repoTbl1 st1)
  ∧ match parent with
    | Some parentName =>
        trace1 (snd r1) = trace1 st1 ++ [EvResolve name (url2path (plat E) parentName)]
    | None => r1 = (Rejected TypeError, st1)
    end.
Proof.
  cbv zeta. destruct parent as [parentName|].
  2: { cbn. split_and!; try done. }
  rewrite findPackage_cases. cbv zeta. unfold findPackageV1. cbv zeta.
  destruct (resolved (resolve E name (url2path (plat E) parentName)))
    as [pathName|msg|] eqn:Hres.
  - destruct (String.eqb pathName name) eqn:Heq; cbn [fst snd trace1 fixTbl1 pathTbl1 repoTbl1].
    + split_and!; done.
    + split_and!; try done.
      * intros p [= <-]. by rewrite !obj_get_set_eq.
      * intros H. by destruct (H _ eq_refl).
  - cbn [fst snd trace1 fixTbl1 pathTbl1 repoTbl1 log repoTbl]. split_and!; done.
  - cbn [fst snd trace1 fixTbl1 pathTbl1 repoTbl1 log repoTbl]. split_and!; done.
Qed.

End Revisions.

(** ** The configuration stage *)

Section ConfigStage.

Lemma readAll_inv readFile l :
  match readAll readFile l with
  | Normal texts => Forall2 (λ q t, readFile q = Some t) l texts
  | Throws e => ∃ l1 p l2, l = l1 ++ p :: l2 ∧ e = ReadError p ∧ readFile p = None
                           ∧ Forall (λ q, is_Some (readFile q)) l1
  | NoFuel => False
  end.
Proof.
  induction l as [|q l IH]; cbn [readAll]; [by constructor|].
  destruct (readFile q) as [t|] eqn:Hq.
  - destruct (readAll readFile l) as [texts|e|]; [by constructor | | done].
    destruct IH as (l1 & p & l2 & -> & -> & Hp & Hl1).
    exists (q :: l1), p, l2. split_and!; [done..|]. constructor; [by eexists | done].
  - exists [], q, l. split_and!; [done..|]. constructor.
Qed.

(** X18. The last stage of [build] writes at most one file, and only to
    [options.outConfigPath]: that path is then set and not empty, the
    shim has been resolved, every included file has been read and the
    write has returned. With no output path it settles without
    consulting anything. It is rejected only by the resolver's error for
    the shim, by the missing list of includes, by the first failing
    read, or by the failing write; and it stays pending only if the
    resolver stays pending. *)
Theorem emitConfig_outcomes E options st :
  let shimName := if debug options then "cbuild/process-dev.js" else "cbuild/process.js" in
  let shim := resolved (resolve E shimName (path_resolve E (basePath E) "package.json")) in
  (∀ w, emitConfig E options st = Resolved (Some w) →
     write_path w = outConfigPath options
     ∧ (∃ p, outConfigPath options = Some p ∧ p ≠ ""
             ∧ fs_writeFile E p (write_text w) = true)
     ∧ (∃ shimPath, shim = Found shimPath)
     ∧ ∃ includes texts,
         includeConfigList options = Some includes
         ∧ Forall2 (λ q t, fs_readFile E q = Some t) includes texts)
  ∧ (emitConfig E options st = Resolved None ↔
     outConfigPath options = None ∨ outConfigPath options = Some "")
  ∧ (∀ e, emitConfig E options st = Rejected e →
       (∃ msg, e = ResolveError msg ∧ shim = NotFound msg)
       ∨ (e = TypeError ∧ includeConfigList options = None)
       ∨ (∃ l1 p l2, includeConfigList options = Some (l1 ++ p :: l2)
                     ∧ e = ReadError p ∧ fs_readFile E p = None
                     ∧ Forall (λ q, is_Some (fs_readFile E q)) l1)
       ∨ ∃ p shimPath w,
           outConfigPath options = Some p ∧ shim = Found shimPath
           ∧ writeConfig (fs_readFile E) options (repoTbl st) (fixTbl st)
               (path_relative E (basePath E) shimPath) = Normal w
           ∧ fs_writeFile E p (write_text w) = false
           ∧ e = WriteError p)
  ∧ (emitConfig E options st = Pending → shim = Hung).
Proof.
  cbv zeta. unfold emitConfig.
  destruct (outConfigPath options) as [[|c p]|] eqn:Hout.
  { split_and!; try done. split; [by right | done]. }
  2: { split_and!; try done. split; [by left | done]. }
  destruct (resolved (resolve E _ _)) as [shimPath|msg|] eqn:Hshim.
  - destruct (writeConfig _ _ _ _ _) as [w0|e0|] eqn:Hw.
    + assert (Hinv : write_path w0 = Some (String c p)
                     ∧ ∃ includes texts,
                         includeConfigList options = Some includes
                         ∧ Forall2 (λ q t, fs_readFile E q = Some t) includes texts).
      { revert Hw. unfold writeConfig. cbv zeta.
        destruct (includeConfigList options) as [includes|] eqn:Hinc; [|done].
        pose proof (readAll_inv (fs_readFile E) includes) as Hread.
        destruct (readAll (fs_readFile E) includes) as [texts| |]; [|done..].
        intros [= <-]. cbn [write_path]. split; [done|]. by exists includes, texts. }
      destruct Hinv as [Hpath Hincl].
      destruct (fs_writeFile E (String c p) (write_text w0)) eqn:Hwrite.
      * split_and!; try done.
        -- intros w [= <-]. split_and!; [done | | by eexists | done].
           exists (String c p). by split_and!.
        -- split; [done|]. by intros [|].
      * split_and!; try done.
        -- split; [done|]. by intros [|].
        -- intros e [= <-]. do 3 right. by exists (String c p), shimPath, w0.
    + assert (Hinv : (e0 = TypeError ∧ includeConfigList options = None)
                     ∨ ∃ l1 q l2, includeConfigList options = Some (l1 ++ q :: l2)
                                  ∧ e0 = ReadError q ∧ fs_readFile E q = None
                                  ∧ Forall (λ x, is_Some (fs_readFile E x)) l1).
      { revert Hw. unfold writeConfig. cbv zeta.
        destruct (includeConfigList options) as [includes|] eqn:Hinc.
        - pose proof (readAll_inv (fs_readFile E) includes) as Hread.
          destruct (readAll (fs_readFile E) includes) as [texts|e1|]; [done| |done].
          intros [= <-]. right. destruct Hread as (l1 & q & l2 & -> & -> & Hq & Hl1).
          by exists l1, q, l2.
        - intros [= <-]. by left. }
      split_and!; try done.
      * split; [done|]. by intros [|].
      * intros e [= <-]. destruct Hinv as [H|H]; [right; by left | right; right; by left].
    + exfalso. revert Hw. unfold writeConfig. cbv zeta.
      destruct (includeConfigList options) as [includes|]; [|done].
      pose proof (readAll_inv (fs_readFile E) includes) as Hread.
      by destruct (readAll (fs_readFile E) includes).
  - split_and!; try done.
    + split; [done|]. by intros [|].
    + intros e [= <-]. left. by exists msg.
  - split_and!; try done. split; [done|]. by intros [|].
Qed.

(** X19. With a fix table that is not empty the emitted configuration
    has four sections, and the last two are both [packages] sections
    that open with the same map for ["."] holding the same fix rows;
    with an empty one it has three. *)
Theorem sectionList_fix_twice repoTbl fixTbl shimPath :
  let rows := Str.join ("," +:+ NL) (map (fixRow fixTbl) (Obj.keys fixTbl)) in
  let opening := TAB +:+ "packages: {" +:+ NL +:+
                 TAB +:+ TAB +:+ quoted "." +:+ ": {" +:+ NL +:+
                 TAB +:+ TAB +:+ TAB +:+ "map: {" +:+ NL in
  match fixTbl with
  | [] => length (sectionList repoTbl fixTbl shimPath) = 3
  | _ :: _ =>
      ∃ s1 s2 rest3 rest4,
        sectionList repoTbl fixTbl shimPath
        = [s1; s2; opening +:+ rows +:+ rest3; opening +:+ rows +:+ rest4]
  end.
Proof.
  cbv zeta. destruct fixTbl as [|kv fixTbl]; [reflexivity|].
  unfold sectionList. cbv zeta. rewrite decide_False by done.
  unfold packagesSection, fixSection.
  set (rows := Str.join _ (map _ (Obj.keys (kv :: fixTbl)))).
  set (mains := Str.join _ (omap _ _)).
  eexists _, _, (NL +:+ TAB +:+ TAB +:+ TAB +:+ "}" +:+ NL +:+ TAB +:+ TAB +:+ "}," +:+ NL
                 +:+ mains +:+ NL +:+ TAB +:+ "}"),
          (NL +:+ TAB +:+ TAB +:+ TAB +:+ "}" +:+ NL +:+ TAB +:+ TAB +:+ "}" +:+ NL
           +:+ TAB +:+ "}").
  cbn [app]. clearbody rows mains.
  refine (f_equal2 cons eq_refl (f_equal2 cons eq_refl
            (f_equal2 cons _ (f_equal2 cons _ eq_refl)))); vm_compute; reflexivity.
Qed.

End ConfigStage.

(** ** Instances *)

(** An aliased name whose candidate path exists: the alias is not
    followed. *)
Lemma normalize_existing_witness :
  let E := Sample.env ["/proj/lib.js"; "/proj/other.js"] Sample.urlOf Sample.noPackage
             (Some [("lib", "other")]) in
  let r := normalize 1 E "lib" (Some "file:///proj/main.js") "" emptySession in
  fst r = Resolved "file:///proj/lib.js" ∧ fixTbl (snd r) = [] ∧ repoTbl (snd r) = [].
Proof.
  intros E r.
  destruct (normalize_existing E 0 "lib" (Some "file:///proj/main.js") "" emptySession
              "file:///proj/lib.js")
    as (Hres & Hfix & Hrepo & _); [reflexivity..|].
  split; [exact Hres|]. split; [exact Hfix | exact Hrepo].
Defined.

(** Two names aliased to each other, neither with a file. *)
Lemma normalize_alias_cycle_witness :
  let E := Sample.env [] Sample.urlOf Sample.noPackage (Some [("a", "b"); ("b", "a")]) in
  fst (normalize 5 E "a" (Some "file:///proj/main.js") "" emptySession) = Pending.
Proof.
  intros E.
  apply (normalize_alias_cycle E (λ n, n = "a" ∨ n = "b") (Some "file:///proj/main.js") "").
  - intros name [-> | ->].
    + exists "file:///proj/a.js", "b". split_and!; [reflexivity..|]. right. reflexivity.
    + exists "file:///proj/b.js", "a". split_and!; [reflexivity..|]. left. reflexivity.
  - left. reflexivity.
Defined.

(** The fix recorded for a directory import. *)
Lemma normalize_fix_prefixed_witness :
  let E := Sample.env ["/proj/lib/index.js"] Sample.urlOf Sample.noPackage None in
  fix_prefixed (fixTbl (snd (normalize 1 E "lib" (Some "file:///proj/main.js") "" emptySession))).
Proof.
  intros E.
  apply (normalize_fix_prefixed E 1 "lib" (Some "file:///proj/main.js") "" emptySession).
  apply Forall_nil_2.
Defined.

(** The package [foo] resolved twice. *)
Lemma findPackage_idempotent_witness :
  let E := Sample.env [] Sample.urlOf
             (fun _ => {| manifests := [(Some "foo", "/proj/node_modules/foo/package.json")];
                          resolved := Found "/proj/node_modules/foo/main.js" |}) None in
  let r1 := findPackage E "foo" (Some "file:///proj/src/a.js") emptySession in
  let r2 := findPackage E "foo" (Some "file:///proj/src/a.js") (snd r1) in
  fst r2 = Resolved "node_modules/foo/main.js" ∧ repoTbl (snd r2) = repoTbl (snd r1).
Proof.
  intros E r1 r2.
  destruct (findPackage_idempotent E "foo" (Some "file:///proj/src/a.js") emptySession
              "node_modules/foo/main.js" (snd r1))
    as (Hres & Hrepo & _); [reflexivity|].
  split; [exact Hres | exact Hrepo].
Defined.

(** A Windows file URL with a drive. *)
Lemma path2url_url2path_witness :
  url2path Win32 "file:///C:/proj/a.js" = "C:\proj\a.js"
  ∧ path2url Win32 (url2path Win32 "file:///C:/proj/a.js") = "file:///C:/proj/a.js".
Proof.
  split; [reflexivity|].
  exact (path2url_url2path Win32 "C:/proj/a.js" (λ _, eq_refl)).
Defined.

(** The key of a package in a nested container. *)
Lemma repo_path_stable_witness :
  let s := "node_modules/y/node_modules/z" in
  repo_path s = "node_modules" ∧ repo_path (repo_path s) = repo_path s.
Proof.
  intros s. split; [reflexivity|].
  exact (proj2 (repo_path_stable s eq_refl)).
Defined.

(** Two repositories entered in either order, with the packages of one
    of them entered in either order. *)
Lemma writeConfig_repo_order_witness :
  let a := {| entryPath := Some "main.js"; rootPath := "node_modules/a" |} in
  let b := {| entryPath := None; rootPath := "node_modules/b/lib/b.js" |} in
  let c := {| entryPath := Some "c.js"; rootPath := "lib/node_modules/c" |} in
  let r1 := [("node_modules", [("a", a); ("b", b)]); ("lib/node_modules", [("c", c)])] in
  let r2 := [("lib/node_modules", [("c", c)]); ("node_modules", [("b", b); ("a", a)])] in
  let options := Sample.options (Some []) in
  writeConfig (λ _, None) options r1 [] "shim.js"
  = writeConfig (λ _, None) options r2 [] "shim.js".
Proof.
  intros a b c r1 r2 options.
  apply (writeConfig_repo_order (λ _, None) options r1 r2 [] "shim.js").
  - apply (bool_decide_unpack _). vm_compute. reflexivity.
  - apply (bool_decide_unpack _). vm_compute. reflexivity.
  - apply (bool_decide_unpack _). vm_compute. reflexivity.
  - exact (Permutation_rev _).
  - exact (Permutation_rev _).
Defined.

(** Three includes of which the second is missing. *)
Lemma writeConfig_read_failure_witness :
  let readFile := λ p, if String.eqb p "b.js" then None else Some ("// " +:+ p) in
  writeConfig readFile (Sample.options (Some ["a.js"; "b.js"; "c.js"])) [] [] "shim.js"
  = Throws (ReadError "b.js").
Proof.
  intros readFile.
  apply (writeConfig_read_failure readFile _ [] [] "shim.js" ["a.js"] "b.js" ["c.js"]).
  - reflexivity.
  - apply Forall_cons_2; [|apply Forall_nil_2]. exists "// a.js". reflexivity.
  - reflexivity.
Defined.

(** Two modules that import each other, with no reported entry point. *)
Lemma makeTree_all_imported_witness :
  makeTree {| entryPoints := None;
              tree := [("A", Sample.item ["B"]); ("B", Sample.item ["A"])] |}
  = Normal (Node "" []).
Proof.
  apply makeTree_all_imported; [reflexivity|].
  intros name Hin. apply elem_of_cons in Hin as [->|Hin].
  - exists "B". apply list_elem_of_singleton. reflexivity.
  - apply list_elem_of_singleton in Hin as ->.
    exists "A". apply list_elem_of_singleton. reflexivity.
Defined.

(** An entry point listed twice, and one that is passed over. *)
Lemma makeTree_root_children_witness :
  let result :=
    {| entryPoints := Some ["A"; "toString"; "B"; "A"];
       tree := [("A", Sample.item ["B"; "C"]); ("B", Sample.item ["C"]);
                ("C", Sample.item [])] |} in
  let t := Node "" [Node "A" [Node "C" []]; Node "B" []] in
  makeTree result = Normal t
  ∧ map branch_name (branch_children t)
    = uniq_from ∅ (filter (λ n, Proto.inherited n = false) (effectiveEntryPoints result)).
Proof.
  intros result t.
  assert (H : makeTree result = Normal t) by (vm_compute; reflexivity).
  split; [exact H|].
  exact (proj2 (makeTree_root_children result t H)).
Defined.
